(** * Backtest engine and evaluation metrics (ccwChi/quant)

    A shallow embedding of [src/backtest/backtester.py] (the cash/position
    accounting loop of [Backtester.run] and the result accessors), of
    [src/backtest/evaluation.py] (max drawdown, CAGR, Sharpe ratio, win
    rate, the metrics dictionary), of the indicators and the two strategies
    that produce the signals ([src/utils/indicators.py],
    [src/strategies/]), and of the optimizer's choice of a best result
    ([src/ai/optimize_strategy.py]).

    Numbers.  Amounts are rationals ([Q]) and equality of amounts is [Qeq]
    ([==]).  Where numpy produces a non-finite value (a division by zero,
    an undefined sample deviation) the embedding keeps it: [float] adds
    [NaN] and the two infinities to [Q].

    Rounding.  [Backtester], [Evaluation] and the modules after them read
    every operation as exact.  Two places of the program are decided by
    the rounding of its binary64 arithmetic: the share count of an entry
    (the quotient can round up to the next integer, and the purchase then
    costs more than the cash on hand) and the zero-deviation guard of the
    Sharpe ratio (the mean of equal numbers need not be that number).
    [Rounded] re-states that code with the result of every operation
    rounded, [binary64] is the rounding of a Python float, and the
    properties of those two places are proved there.  Overflow, subnormal
    numbers and signed zeros are outside the model. *)

From Stdlib Require Import ZArith QArith Qround Qminmax Qabs Qpower List Bool Lia Lqa.
Import ListNotations.

Open Scope Q_scope.

(** ** Results of fallible code *)

(** The only exception the accounting loop can raise: [int()] applied to the
    non-finite quotient of a division by a zero close
    ([OverflowError] on an infinity, [ValueError] on a NaN). *)
Inductive error : Type :=
| NonFiniteToInt.

Inductive result (A : Type) : Type :=
| Ok (a : A)
| Raise (e : error).

Arguments Ok {A} a.
Arguments Raise {A} e.

Definition bind {A B : Type} (r : result A) (k : A -> result B) : result B :=
  match r with
  | Ok a => k a
  | Raise e => Raise e
  end.

Notation "x <- r ;; k" := (bind r (fun x => k))
  (at level 61, r at next level, right associativity).

(** Python's [int(x)] on a finite float: truncation toward zero. *)
Definition int_of (x : Q) : Z := Z.quot (Qnum x) (Zpos (Qden x)).

(** ** Rounding to binary64 *)

(** A Python float is an IEEE 754 binary64 number, and an arithmetic
    operation on floats returns the exact result rounded to the nearest
    such number, ties going to the even significand.  [binary64] is that
    rounding on the rationals: 53 significant bits, the exponent without
    bounds. *)

Definition pow2 (e : Z) : Q := Qpower 2 e.

(** The nearest integer, ties to even. *)
Definition rne (x : Q) : Z :=
  let f := Qfloor x in
  match Qcompare (x - inject_Z f) (1 # 2) with
  | Lt => f
  | Gt => (f + 1)%Z
  | Eq => if Z.even f then f else (f + 1)%Z
  end.

(** For [0 < a], the exponent [e] with [2^52 <= a * 2^-e < 2^53]: the
    difference of the bit lengths of numerator and denominator is [e + 52]
    or [e + 53]. *)
Definition expo (a : Q) : Z :=
  let e0 := (Z.log2 (Qnum a) - Z.log2 (Zpos (Qden a)) - 52)%Z in
  if Qle_bool (pow2 52) (a * pow2 (- e0)) then e0 else (e0 - 1)%Z.

(** [0 < a] rounded to 53 significant bits, in lowest terms. *)
Definition round_pos (a : Q) : Q :=
  Qred (inject_Z (rne (a * pow2 (- expo a))) * pow2 (expo a)).

Definition binary64 (x : Q) : Q :=
  match Qcompare x 0 with
  | Eq => 0
  | Gt => round_pos (Qred x)
  | Lt => - round_pos (Qred (- x))
  end.

(** The unit roundoff of binary64, [2^-53]. *)
Definition unit_roundoff : Q := 1 # (2 ^ 53).

(** ** backtester.py *)

Module Backtester.

(** One row of the frame returned by [strategy.generate_signals]: the two
    columns the loop reads.  Both series live in one frame, so they always
    have the same length. *)
Record Bar : Type := mkBar { signal : Z; close : Q }.

(** The three columns [run] writes. *)
Record Row : Type := mkRow { holdings : Q; cash : Q; total : Q }.

(** [Backtester.__init__] *)
Record t : Type := mk { initial_capital : Q; commission : Q }.

(** The loop variables [cash] and [position]. *)
Record State : Type := mkState { st_cash : Q; position : Z }.

Definition init (bt : t) : State :=
  {| st_cash := initial_capital bt; position := 0 |}.

(** [shares_to_buy = int((cash * (1 - self.commission)) / price)], the
    quotient read as exact ([Rounded.shares_to_buy] rounds it as the
    program does). *)
Definition shares_to_buy (bt : t) (c price : Q) : result Z :=
  if Qeq_bool price 0 then Raise NonFiniteToInt
  else Ok (int_of ((c * (1 - commission bt)) / price)).

(** The body of the [for] loop up to the ledger update (lines 48-68). *)
Definition step (bt : t) (st : State) (b : Bar) : result State :=
  let price := close b in
  if (signal b >? 0)%Z && (position st =? 0)%Z then
    shares <- shares_to_buy bt (st_cash st) price ;;
    let cost := inject_Z shares * price in
    let commission_cost := cost * commission bt in
    Ok {| st_cash := st_cash st - (cost + commission_cost);
          position := shares |}
  else if (signal b <? 0)%Z && (position st >? 0)%Z then
    let revenue := inject_Z (position st) * price in
    let commission_cost := revenue * commission bt in
    Ok {| st_cash := st_cash st + (revenue - commission_cost);
          position := 0 |}
  else Ok st.

(** The ledger update (lines 71-73). *)
Definition row_of (st : State) (b : Bar) : Row :=
  {| holdings := inject_Z (position st) * close b;
     cash := st_cash st;
     total := st_cash st + inject_Z (position st) * close b |}.

(** The columns as initialised before the loop (lines 40-42); row 0 keeps
    these values because the loop starts at index 1. *)
Definition seed_row (bt : t) : Row :=
  {| holdings := 0; cash := initial_capital bt; total := initial_capital bt |}.

(** [for i in range(1, len(df))], each written row paired with the loop
    state it was written from. *)
Fixpoint loop (bt : t) (st : State) (bars : list Bar)
  : result (list (State * Row)) :=
  match bars with
  | [] => Ok []
  | b :: rest =>
      st' <- step bt st b ;;
      rows <- loop bt st' rest ;;
      Ok ((st', row_of st' b) :: rows)
  end.

Definition run_trace (bt : t) (bars : list Bar)
  : result (list (State * Row)) :=
  match bars with
  | [] => Ok []
  | _ :: rest =>
      rows <- loop bt (init bt) rest ;;
      Ok ((init bt, seed_row bt) :: rows)
  end.

(** [Backtester.run]: the ledger columns of the returned frame. *)
Definition run (bt : t) (bars : list Bar) : result (list Row) :=
  tr <- run_trace bt bars ;; Ok (map snd tr).

(** Share quantity held after each bar of a run. *)
Definition quantities (bt : t) (bars : list Bar) : result (list Z) :=
  tr <- run_trace bt bars ;; Ok (map (fun sr => position (fst sr)) tr).

(** The invariant of a ledger entry written at bar [b], against the loop
    state it was written from. *)
Definition row_ok (b : Bar) (sr : State * Row) : Prop :=
  total (snd sr) == cash (snd sr) + holdings (snd sr)
  /\ holdings (snd sr) == inject_Z (position (fst sr)) * close b
  /\ (position (fst sr) = 0%Z -> holdings (snd sr) == 0).

(** [portfolio_value.iloc[-1]] on the [total] column. *)
Definition final_total (ledger : list Row) : option Q :=
  match rev ledger with
  | [] => None
  | r :: _ => Some (total r)
  end.

(** A trace with its rationals in lowest terms:
    quantity, cash, holdings, total of each bar. *)
Definition trace_view (tr : list (State * Row)) : list (Z * Q * Q * Q) :=
  map (fun sr => (position (fst sr), Qred (cash (snd sr)),
                  Qred (holdings (snd sr)), Qred (total (snd sr)))) tr.

(** The inputs the specification wants [run] to reject.  Signals and closes
    are columns of one frame, so a length mismatch has no instance. *)
Definition rejected_by_spec (bars : list Bar) : Prop :=
  bars = [] \/ Exists (fun b => close b <= 0) bars.

(** Successive quantities of a single-position book: between two bars the
    quantity stays, leaves 0, or returns to 0. *)
Fixpoint single_position (q : Z) (qs : list Z) : Prop :=
  match qs with
  | [] => True
  | q' :: rest => (q' = q \/ q = 0%Z \/ q' = 0%Z) /\ single_position q' rest
  end.

(** A loop state that can still trade: cash and quantity are not negative,
    a flat book has cash left, and a position is only held under a
    commission rate below 1. *)
Definition solvent (bt : t) (st : State) : Prop :=
  0 <= st_cash st
  /\ (0 <= position st)%Z
  /\ (position st = 0%Z -> 0 < st_cash st)
  /\ ((0 < position st)%Z -> commission bt < 1).

(** Scenarios A and B of the specification. *)
Definition scenario_bars : list Bar :=
  [mkBar 0 100; mkBar 1 110; mkBar (-1) 90; mkBar 0 120].

Definition scenario_A : t := {| initial_capital := 1000; commission := 0 |}.

Definition scenario_B : t := {| initial_capital := 1000; commission := 1 # 100 |}.

End Backtester.

(** ** numpy / pandas values *)

(** A float64 with its non-finite values. *)
Inductive float : Type :=
| NaN
| NegInf
| PosInf
| Fin (q : Q).

Definition Qlt_bool (x y : Q) : bool := negb (Qle_bool y x).

Definition is_nan (x : float) : bool :=
  match x with NaN => true | _ => false end.

Definition fopp (x : float) : float :=
  match x with
  | NaN => NaN
  | NegInf => PosInf
  | PosInf => NegInf
  | Fin q => Fin (- q)
  end.

Definition fadd (x y : float) : float :=
  match x, y with
  | NaN, _ | _, NaN => NaN
  | PosInf, NegInf | NegInf, PosInf => NaN
  | PosInf, _ | _, PosInf => PosInf
  | NegInf, _ | _, NegInf => NegInf
  | Fin a, Fin b => Fin (a + b)
  end.

Definition fsub (x y : float) : float := fadd x (fopp y).

(** An infinity carrying the sign of [q] times the sign of [pos]. *)
Definition signed_inf (pos : bool) (q : Q) : float :=
  if Qeq_bool q 0 then NaN
  else if eqb pos (Qlt_bool 0 q) then PosInf else NegInf.

Definition fmul (x y : float) : float :=
  match x, y with
  | NaN, _ | _, NaN => NaN
  | Fin a, Fin b => Fin (a * b)
  | PosInf, Fin b | Fin b, PosInf => signed_inf true b
  | NegInf, Fin b | Fin b, NegInf => signed_inf false b
  | PosInf, PosInf | NegInf, NegInf => PosInf
  | PosInf, NegInf | NegInf, PosInf => NegInf
  end.

Definition fdiv (x y : float) : float :=
  match x, y with
  | NaN, _ | _, NaN => NaN
  | Fin a, Fin b =>
      if Qeq_bool b 0 then signed_inf true a else Fin (a / b)
  | Fin _, _ => Fin 0
  | PosInf, Fin b => if Qlt_bool b 0 then NegInf else PosInf
  | NegInf, Fin b => if Qlt_bool b 0 then PosInf else NegInf
  | _, _ => NaN
  end.

(** [x < y], [x <= y], [x == y] on floats; every comparison with a NaN is
    [False]. *)
Definition fltb (x y : float) : bool :=
  match x, y with
  | NaN, _ | _, NaN => false
  | _, NegInf | PosInf, _ => false
  | NegInf, _ | _, PosInf => true
  | Fin a, Fin b => Qlt_bool a b
  end.

Definition fleb (x y : float) : bool :=
  match x, y with
  | NaN, _ | _, NaN => false
  | NegInf, _ | _, PosInf => true
  | _, NegInf | PosInf, _ => false
  | Fin a, Fin b => Qle_bool a b
  end.

Definition feqb (x y : float) : bool :=
  match x, y with
  | NegInf, NegInf | PosInf, PosInf => true
  | Fin a, Fin b => Qeq_bool a b
  | _, _ => false
  end.

(** The same float up to the representation of the rational. *)
Definition feq (x y : float) : Prop :=
  match x, y with
  | NaN, NaN | NegInf, NegInf | PosInf, PosInf => True
  | Fin a, Fin b => a == b
  | _, _ => False
  end.

(** A float that is no infinity. *)
Definition finite_or_nan (x : float) : Prop := x <> PosInf /\ x <> NegInf.

(** [Series.dropna()]: what the reductions below see with [skipna=True]. *)
Definition dropna (s : list float) : list float :=
  filter (fun x => negb (is_nan x)) s.

(** [Series.sum()]: NaN skipped, [0] on nothing. *)
Definition series_sum (s : list float) : float :=
  fold_left fadd (dropna s) (Fin 0).

(** [Series.min()]: NaN skipped, NaN on nothing. *)
Definition series_min (s : list float) : float :=
  match dropna s with
  | [] => NaN
  | x :: xs => fold_left (fun m y => if fltb y m then y else m) xs x
  end.

(** [Series.mean()]: NaN skipped, NaN on nothing. *)
Definition series_mean (s : list float) : float :=
  match dropna s with
  | [] => NaN
  | xs => fdiv (fold_left fadd xs (Fin 0)) (Fin (inject_Z (Z.of_nat (length xs))))
  end.

(** [Series.var()] with the default [ddof=1]: NaN skipped, NaN when fewer
    than two observations remain.  Sums and mean are read as exact
    ([Rounded.series_var] is the computed one). *)
Definition series_var (s : list float) : float :=
  let xs := dropna s in
  let count := length xs in
  if (count <=? 1)%nat then NaN
  else
    let avg := fdiv (fold_left fadd xs (Fin 0)) (Fin (inject_Z (Z.of_nat count))) in
    let sqr := map (fun x => let d := fsub avg x in fmul d d) xs in
    fdiv (fold_left fadd sqr (Fin 0)) (Fin (inject_Z (Z.of_nat (count - 1)))).

(** [Series.cummax()] on a series of finite values. *)
Fixpoint cummax_from (m : Q) (s : list Q) : list Q :=
  match s with
  | [] => []
  | x :: xs => let m' := Qmax m x in m' :: cummax_from m' xs
  end.

Definition cummax (s : list Q) : list Q :=
  match s with
  | [] => []
  | x :: xs => x :: cummax_from x xs
  end.

(** [Series.pct_change()] on a series of finite values:
    NaN first, then [s[i] / s[i-1] - 1]. *)
Fixpoint pct_change_from (prev : Q) (s : list Q) : list float :=
  match s with
  | [] => []
  | x :: xs => fsub (fdiv (Fin x) (Fin prev)) (Fin 1) :: pct_change_from x xs
  end.

Definition pct_change (s : list Q) : list float :=
  match s with
  | [] => []
  | x :: xs => NaN :: pct_change_from x xs
  end.

(** [Series.iloc[a:b]] for [0 <= a], [0 <= b]. *)
Definition iloc_slice {A : Type} (s : list A) (a b : nat) : list A :=
  skipn a (firstn b s).

(** One entry of the [drawdown] series of [calculate_max_drawdown], from a
    value and the running maximum beside it. *)
Definition drawdown_of (vm : Q * Q) : float :=
  fdiv (fsub (Fin (fst vm)) (Fin (snd vm))) (Fin (snd vm)).

(** A series that never declines: each value is at least the one before. *)
Fixpoint nondecreasing_from (m : Q) (s : list Q) : Prop :=
  match s with
  | [] => True
  | x :: xs => m <= x /\ nondecreasing_from x xs
  end.

Definition nondecreasing (s : list Q) : Prop :=
  match s with
  | [] => True
  | x :: xs => nondecreasing_from x xs
  end.

(** ** evaluation.py *)

Module Evaluation.

(** [calculate_max_drawdown] *)
Definition calculate_max_drawdown (portfolio_value : list Q) : float :=
  let cm := cummax portfolio_value in
  let drawdown :=
    map (fun vm => fdiv (fsub (Fin (fst vm)) (Fin (snd vm))) (Fin (snd vm)))
        (combine portfolio_value cm) in
  series_min drawdown.

(** [excess_returns = returns - (risk_free_rate / 252)] *)
Definition excess_returns (returns : list float) (risk_free_rate : Q)
  : list float :=
  map (fun r => fsub r (Fin (risk_free_rate / 252))) returns.

Section Sharpe.

(** [np.sqrt] on the non-negative finite values; the library function is a
    parameter of the development. *)
Variable sqrt : Q -> Q.

Definition fsqrt (x : float) : float :=
  match x with
  | NaN | NegInf => NaN
  | PosInf => PosInf
  | Fin q => if Qlt_bool q 0 then NaN else Fin (sqrt q)
  end.

(** [Series.std()] *)
Definition series_std (s : list float) : float := fsqrt (series_var s).

(** [calculate_sharpe_ratio] *)
Definition calculate_sharpe_ratio (returns : list float) (risk_free_rate : Q)
  : float :=
  let excess := excess_returns returns risk_free_rate in
  if feqb (series_std excess) (Fin 0) then Fin 0
  else fmul (fsqrt (Fin 252)) (fdiv (series_mean excess) (series_std excess)).

End Sharpe.

(** A computable instance of the square-root parameter: the integer square
    root of the numerator scaled by [10^12], over the denominator scaled by
    [10^6]. *)
Definition sqrt_approx (q : Q) : Q :=
  Z.sqrt (Qnum q * Zpos (Qden q) * 10 ^ 12) # (Qden q * 10 ^ 6).

(** The dictionary returned by [calculate_win_rate]. *)
Record WinStats : Type := mkWinStats {
  total_trades : nat;
  winning_trades : nat;
  losing_trades : nat;
  win_rate : Q
}.

Definition zero_stats : WinStats :=
  {| total_trades := 0; winning_trades := 0; losing_trades := 0; win_rate := 0 |}.

(** The [for i in range(len(signals))] loop of [calculate_win_rate]:
    [signals] is what remains from index [i] on, [position] the loop
    variable; the result is what gets appended to [trade_returns]. *)
Fixpoint scan_trades (returns : list float) (i position : nat) (signals : list Z)
  : list float :=
  match signals with
  | [] => []
  | s :: rest =>
      if (s >? 0)%Z then scan_trades returns (S i) i rest
      else if (s <? 0)%Z && (0 <? position)%nat then
        series_sum (iloc_slice returns position (i + 1))
          :: scan_trades returns (S i) 0%nat rest
      else scan_trades returns (S i) position rest
  end.

(** The same loop, recording the window [(position, i)] of each trade it
    appends. *)
Fixpoint scan_windows (i position : nat) (signals : list Z) : list (nat * nat) :=
  match signals with
  | [] => []
  | s :: rest =>
      if (s >? 0)%Z then scan_windows (S i) i rest
      else if (s <? 0)%Z && (0 <? position)%nat then
        (position, i) :: scan_windows (S i) 0%nat rest
      else scan_windows (S i) position rest
  end.

Definition count_if {A : Type} (p : A -> bool) (l : list A) : nat :=
  length (filter p l).

(** [calculate_win_rate] *)
Definition calculate_win_rate (signals : list Z) (returns : list float)
  : WinStats :=
  let trades := filter (fun s => negb (s =? 0)%Z) signals in
  if (length trades =? 0)%nat then zero_stats
  else
    let trade_returns := scan_trades returns 0 0 signals in
    if (length trade_returns =? 0)%nat then zero_stats
    else
      let winning := count_if (fun r => fltb (Fin 0) r) trade_returns in
      let losing := count_if (fun r => fleb r (Fin 0)) trade_returns in
      {| total_trades := length trade_returns;
         winning_trades := winning;
         losing_trades := losing;
         win_rate :=
           (inject_Z (Z.of_nat winning)
              / inject_Z (Z.of_nat (length trade_returns))) * 100 |}.

(** *** The statistics as the specification words them *)

(** [M[i] = max(total_value[0..i])] *)
Definition spec_running_max (total_value : list Q) (i : nat) : Q :=
  match firstn (S i) total_value with
  | [] => 0
  | x :: xs => fold_left Qmax xs x
  end.

(** [drawdown[i] = (total_value[i] - M[i]) / M[i]] *)
Definition spec_drawdown (total_value : list Q) (i : nat) : Q :=
  (nth i total_value 0 - spec_running_max total_value i)
    / spec_running_max total_value i.

(** [result = min(drawdown)] *)
Definition spec_max_drawdown (total_value : list Q) : Q :=
  match map (spec_drawdown total_value) (seq 0 (length total_value)) with
  | [] => 0
  | d :: ds => fold_left Qmin ds d
  end.

(** Buy-then-later-Sell pairs: [entry] is [Some e] while in a trade entered
    at index [e]; the first negative signal met in a trade closes it; a
    trade still open when the series ends is dropped.  (A further Buy met
    while in a trade moves the entry, as the code does; the specification
    leaves that case open.) *)
Fixpoint spec_trade_windows (i : nat) (entry : option nat) (signals : list Z)
  : list (nat * nat) :=
  match signals with
  | [] => []
  | s :: rest =>
      if (s >? 0)%Z then spec_trade_windows (S i) (Some i) rest
      else if (s <? 0)%Z then
        match entry with
        | Some e => (e, i) :: spec_trade_windows (S i) None rest
        | None => spec_trade_windows (S i) None rest
        end
      else spec_trade_windows (S i) entry rest
  end.

(** A trade's return: the sum of the per-bar returns over
    [[entry_index, exit_index]]. *)
Definition window_return (returns : list float) (w : nat * nat) : float :=
  series_sum (iloc_slice returns (fst w) (snd w + 1)).

(** The statistics of a list of trade returns: a return [> 0] is a win,
    [<= 0] a loss; all zero when there is no trade. *)
Definition spec_stats (trade_returns : list float) : WinStats :=
  match trade_returns with
  | [] => zero_stats
  | _ =>
      let winning := count_if (fun r => fltb (Fin 0) r) trade_returns in
      {| total_trades := length trade_returns;
         winning_trades := winning;
         losing_trades := count_if (fun r => fleb r (Fin 0)) trade_returns;
         win_rate :=
           (inject_Z (Z.of_nat winning)
              / inject_Z (Z.of_nat (length trade_returns))) * 100 |}
  end.

Definition spec_win_rate (signals : list Z) (returns : list float) : WinStats :=
  spec_stats (map (window_return returns) (spec_trade_windows 0 None signals)).

End Evaluation.

(** ** evaluation.py: CAGR and the metrics dictionary;
       backtester.py: the result accessors *)

(** The exceptions of the metrics and of the accessors. *)
Inductive exn : Type :=
| ValueError_run_first          (* raise ValueError("... (run method)") *)
| ValueError_no_optimization    (* raise ValueError of [get_best_result] *)
| IndexError                    (* [.iloc[0]] or [.iloc[-1]] on an empty series *)
| ArithmeticFault (e : error).  (* raised inside [run] *)

Inductive outcome (A : Type) : Type :=
| Done (a : A)
| Raised (x : exn).

Arguments Done {A} a.
Arguments Raised {A} x.

Module Metrics.

(** The dictionary built by [calculate_metrics]. *)
Record t : Type := mk {
  initial_capital : Q;
  final_value : Q;
  total_return : float;
  max_drawdown : float;
  cagr : float;
  sharpe_ratio : float;
  volatility : float
}.

Section WithLibrary.

(** [np.sqrt] and the float power [pow(x, y)] are parameters. *)
Variable sqrt : Q -> Q.
Variable pow : Q -> Q -> float.

(** [calculate_cagr]; [years = None] is the default argument. *)
Definition calculate_cagr (portfolio_value : list Q) (years : option Q)
  : outcome float :=
  let years :=
    match years with
    | Some y => y
    | None => inject_Z (Z.of_nat (length portfolio_value)) / 252
    end in
  match portfolio_value with
  | [] => Raised IndexError
  | initial_value :: _ =>
      let final_value := last portfolio_value 0 in
      if Qle_bool initial_value 0 || Qle_bool years 0 then Done (Fin 0)
      else Done (fmul (fsub (pow (final_value / initial_value) (1 / years))
                            (Fin 1))
                      (Fin 100))
  end.

(** [calculate_metrics] *)
Definition calculate_metrics (portfolio_value : list Q) (returns : list float)
    (capital : Q) : outcome t :=
  match portfolio_value with
  | [] => Raised IndexError
  | _ =>
      let final := last portfolio_value 0 in
      match calculate_cagr portfolio_value None with
      | Raised x => Raised x
      | Done growth =>
          Done {| initial_capital := capital;
                  final_value := final;
                  total_return :=
                    fmul (fdiv (Fin (final - capital)) (Fin capital)) (Fin 100);
                  max_drawdown :=
                    fmul (Evaluation.calculate_max_drawdown portfolio_value)
                         (Fin 100);
                  cagr := growth;
                  sharpe_ratio :=
                    Evaluation.calculate_sharpe_ratio sqrt returns (2 # 100);
                  volatility :=
                    fmul (fmul (Evaluation.series_std sqrt returns)
                               (Evaluation.fsqrt sqrt (Fin 252)))
                         (Fin 100) |}
      end
  end.

End WithLibrary.

End Metrics.

(** A [Backtester] object: its two settings and [self.results]. *)
Module Engine.

Record t : Type := mk {
  config : Backtester.t;
  results : option (list Backtester.Row)
}.

(** [Backtester(initial_capital, commission)] *)
Definition new (capital rate : Q) : t :=
  {| config := Backtester.mk capital rate; results := None |}.

(** [run] with its effect on the object: [self.results] is assigned only
    when the loop has completed. *)
Definition run (e : t) (bars : list Backtester.Bar)
  : outcome (list Backtester.Row) * t :=
  match Backtester.run (config e) bars with
  | Ok ledger => (Done ledger, {| config := config e; results := Some ledger |})
  | Raise x => (Raised (ArithmeticFault x), e)
  end.

(** [get_portfolio_value] *)
Definition get_portfolio_value (e : t) : outcome (list Q) :=
  match results e with
  | None => Raised ValueError_run_first
  | Some ledger => Done (map Backtester.total ledger)
  end.

(** [get_returns] *)
Definition get_returns (e : t) : outcome (list float) :=
  match get_portfolio_value e with
  | Raised x => Raised x
  | Done portfolio_value => Done (pct_change portfolio_value)
  end.

(** [summary] *)
Definition summary (sqrt : Q -> Q) (pow : Q -> Q -> float) (e : t)
  : outcome Metrics.t :=
  match results e with
  | None => Raised ValueError_run_first
  | Some _ =>
      match get_portfolio_value e, get_returns e with
      | Done portfolio_value, Done returns =>
          Metrics.calculate_metrics sqrt pow portfolio_value returns
            (Backtester.initial_capital (config e))
      | Raised x, _ | _, Raised x => Raised x
      end
  end.

End Engine.

(** ** backtester.py and evaluation.py with every operation rounded *)

(** The accounting loop and the Sharpe ratio once more, the result of every
    float operation passed through a rounding [rnd].  The program is the
    instance [rnd := binary64]; with [rnd := fun x => x] the loop is the
    one of [Backtester]. *)
Module Rounded.
Import Backtester.

Section Arithmetic.

Variable rnd : Q -> Q.

(** [shares_to_buy = int((cash * (1 - self.commission)) / price)]: a
    subtraction, a product and a quotient, each rounded, then [int()]. *)
Definition shares_to_buy (bt : t) (c price : Q) : result Z :=
  if Qeq_bool price 0 then Raise NonFiniteToInt
  else Ok (int_of (rnd (rnd (c * rnd (1 - commission bt)) / price))).

(** The body of the [for] loop up to the ledger update (lines 48-68). *)
Definition step (bt : t) (st : State) (b : Bar) : result State :=
  let price := close b in
  if (signal b >? 0)%Z && (position st =? 0)%Z then
    shares <- shares_to_buy bt (st_cash st) price ;;
    let cost := rnd (inject_Z shares * price) in
    let commission_cost := rnd (cost * commission bt) in
    Ok {| st_cash := rnd (st_cash st - rnd (cost + commission_cost));
          position := shares |}
  else if (signal b <? 0)%Z && (position st >? 0)%Z then
    let revenue := rnd (inject_Z (position st) * price) in
    let commission_cost := rnd (revenue * commission bt) in
    Ok {| st_cash := rnd (st_cash st + rnd (revenue - commission_cost));
          position := 0 |}
  else Ok st.

(** The ledger update (lines 71-73). *)
Definition row_of (st : State) (b : Bar) : Row :=
  {| holdings := rnd (inject_Z (position st) * close b);
     cash := st_cash st;
     total := rnd (st_cash st + rnd (inject_Z (position st) * close b)) |}.

(** [for i in range(1, len(df))] *)
Fixpoint loop (bt : t) (st : State) (bars : list Bar)
  : result (list (State * Row)) :=
  match bars with
  | [] => Ok []
  | b :: rest =>
      st' <- step bt st b ;;
      rows <- loop bt st' rest ;;
      Ok ((st', row_of st' b) :: rows)
  end.

Definition run_trace (bt : t) (bars : list Bar)
  : result (list (State * Row)) :=
  match bars with
  | [] => Ok []
  | _ :: rest =>
      rows <- loop bt (init bt) rest ;;
      Ok ((init bt, seed_row bt) :: rows)
  end.

(** [Backtester.run] *)
Definition run (bt : t) (bars : list Bar) : result (list Row) :=
  tr <- run_trace bt bars ;; Ok (map snd tr).

(** A float operation: the exact result, rounded when it is finite. *)
Definition fround (x : float) : float :=
  match x with
  | Fin q => Fin (rnd q)
  | _ => x
  end.

Definition rsub (x y : float) : float := fround (fsub x y).
Definition rmul (x y : float) : float := fround (fmul x y).
Definition rdiv (x y : float) : float := fround (fdiv x y).

(** [Series.pct_change()]: NaN first, then [s[i] / s[i-1] - 1]. *)
Fixpoint pct_change_from (prev : Q) (s : list Q) : list float :=
  match s with
  | [] => []
  | x :: xs => rsub (rdiv (Fin x) (Fin prev)) (Fin 1) :: pct_change_from x xs
  end.

Definition pct_change (s : list Q) : list float :=
  match s with
  | [] => []
  | x :: xs => NaN :: pct_change_from x xs
  end.

(** [excess_returns = returns - (risk_free_rate / 252)] *)
Definition excess_returns (returns : list float) (risk_free_rate : Q)
  : list float :=
  map (fun r => rsub r (Fin (rnd (risk_free_rate / 252)))) returns.


Section Reductions.

(** The summation of the array library, whose order of additions depends on
    the length of the array, and [np.sqrt] are parameters. *)
Variable fsum : list float -> float.
Variable sqrt : Q -> Q.

(** The reductions of pandas put 0 in the place of a NaN before they sum. *)
Definition fillna0 (s : list float) : list float :=
  map (fun x => if is_nan x then Fin 0 else x) s.

(** [Series.mean()]: the sum over the count of the entries that are not
    NaN. *)
Definition series_mean (s : list float) : float :=
  let count := length (dropna s) in
  if (count =? 0)%nat then NaN
  else rdiv (fsum (fillna0 s)) (Fin (inject_Z (Z.of_nat count))).

(** [Series.var()] with [ddof=1]: the mean, the squared differences from
    it, their sum over [count - 1]. *)
Definition series_var (s : list float) : float :=
  let count := length (dropna s) in
  if (count <=? 1)%nat then NaN
  else
    let avg := rdiv (fsum (fillna0 s)) (Fin (inject_Z (Z.of_nat count))) in
    let sqr :=
      map (fun x => if is_nan x then Fin 0
                    else let d := rsub avg x in rmul d d) s in
    rdiv (fsum sqr) (Fin (inject_Z (Z.of_nat (count - 1)))).

(** [Series.std()] *)
Definition series_std (s : list float) : float :=
  Evaluation.fsqrt sqrt (series_var s).

(** [calculate_sharpe_ratio] *)
Definition calculate_sharpe_ratio (returns : list float) (risk_free_rate : Q)
  : float :=
  let excess := excess_returns returns risk_free_rate in
  if feqb (series_std excess) (Fin 0) then Fin 0
  else rmul (Evaluation.fsqrt sqrt (Fin 252))
            (rdiv (series_mean excess) (series_std excess)).

End Reductions.

End Arithmetic.

End Rounded.

(** ** ai/optimize_strategy.py *)

Module Optimizer.

(** Python's [max(iterable, key=f)] on a non-empty iterable: the running
    best is replaced only when the key of the next item compares greater. *)
Definition py_max {A : Type} (key : A -> float) (first : A) (rest : list A) : A :=
  fold_left (fun best item => if fltb (key best) (key item) then item else best)
            rest first.

(** [get_best_result] over [self.optimization_history]; [sharpe] reads
    [x['metrics']['sharpe_ratio']]. *)
Definition get_best_result {A : Type} (sharpe : A -> float) (history : list A)
  : outcome A :=
  match history with
  | [] => Raised ValueError_no_optimization
  | first :: rest => Done (py_max sharpe first rest)
  end.

End Optimizer.

(** ** utils/indicators.py *)

Module Indicators.

(** [Series.rolling(window=window).mean()], with the default
    [min_periods = window], on a series without infinities: NaN until
    [window] observations are in the window and where a NaN is, the mean of
    the last [window] values otherwise. *)
Definition rolling_mean (window : nat) (s : list float) : list float :=
  map (fun i =>
         let w := iloc_slice s (i + 1 - window) (i + 1) in
         if (window =? 0)%nat || (length (dropna w) <? window)%nat then NaN
         else fdiv (fold_left fadd w (Fin 0)) (Fin (inject_Z (Z.of_nat window))))
      (seq 0 (length s)).

(** [calculate_sma] *)
Definition calculate_sma (prices : list float) (window : nat) : list float :=
  rolling_mean window prices.

(** [Series.diff()]: NaN first, then [s[i] - s[i-1]]. *)
Fixpoint diff_from (prev : float) (s : list float) : list float :=
  match s with
  | [] => []
  | x :: xs => fsub x prev :: diff_from x xs
  end.

Definition diff (s : list float) : list float :=
  match s with
  | [] => []
  | x :: xs => NaN :: diff_from x xs
  end.

(** [delta.where(delta > 0, 0)] *)
Definition gains (delta : list float) : list float :=
  map (fun d => if fltb (Fin 0) d then d else Fin 0) delta.

(** [-delta.where(delta < 0, 0)] *)
Definition losses (delta : list float) : list float :=
  map (fun d => fopp (if fltb d (Fin 0) then d else Fin 0)) delta.

(** [rsi = 100 - (100 / (1 + rs))] *)
Definition rsi_of_rs (rs : float) : float :=
  fsub (Fin 100) (fdiv (Fin 100) (fadd (Fin 1) rs)).

(** [calculate_rsi] *)
Definition calculate_rsi (prices : list float) (period : nat) : list float :=
  let delta := diff prices in
  let avg_gain := rolling_mean period (gains delta) in
  let avg_loss := rolling_mean period (losses delta) in
  let rs := map (fun gl => fdiv (fst gl) (snd gl)) (combine avg_gain avg_loss) in
  map rsi_of_rs rs.

(** [Series.ewm(span=span, adjust=False).mean()] on a series without NaN,
    for [span >= 1]: [y[0] = x[0]], then
    [y[t] = (1 - alpha) * y[t-1] + alpha * x[t]] with
    [alpha = 2 / (span + 1)]. *)
Fixpoint ewm_from (alpha : Q) (prev : float) (s : list float) : list float :=
  match s with
  | [] => []
  | x :: xs =>
      let y := fadd (fmul (Fin (1 - alpha)) prev) (fmul (Fin alpha) x) in
      y :: ewm_from alpha y xs
  end.

Definition ewm_mean (span : nat) (s : list float) : list float :=
  match s with
  | [] => []
  | x :: xs => x :: ewm_from (2 / inject_Z (Z.of_nat span + 1)) x xs
  end.

(** [calculate_ema] *)
Definition calculate_ema (prices : list float) (window : nat) : list float :=
  ewm_mean window prices.

(** [Series.shift()]: NaN first, then the value of the bar before. *)
Fixpoint shift_from (prev : float) (s : list float) : list float :=
  match s with
  | [] => []
  | x :: xs => prev :: shift_from x xs
  end.

Definition shift (s : list float) : list float := shift_from NaN s.

(** [abs] of a float. *)
Definition fabs (x : float) : float :=
  match x with
  | NaN => NaN
  | NegInf | PosInf => PosInf
  | Fin q => Fin (Qabs q)
  end.

(** One row of [DataFrame.max(axis=1)]: NaN skipped, NaN on nothing. *)
Definition row_max (row : list float) : float :=
  match dropna row with
  | [] => NaN
  | x :: xs => fold_left (fun m y => if fltb m y then y else m) xs x
  end.

(** One row of the true range: [high - low], [abs(high - close.shift())]
    and [abs(low - close.shift())], and their maximum. *)
Definition true_range (hlp : float * (float * float)) : float :=
  let h := fst hlp in
  let l := fst (snd hlp) in
  let prev_close := snd (snd hlp) in
  row_max [fsub h l; fabs (fsub h prev_close); fabs (fsub l prev_close)].

(** [calculate_atr], on three columns of one frame (equal lengths). *)
Definition calculate_atr (high low close : list float) (period : nat)
  : list float :=
  let tr := map true_range (combine high (combine low (shift close))) in
  ewm_mean period tr.

End Indicators.

(** ** strategies/momentum.py, strategies/mean_reversion.py *)

Module Momentum.

(** The [position] and [signal] columns of
    [MomentumStrategy.generate_signals]. *)
Definition positions (closes : list float) (short_window long_window : nat)
  : list Z :=
  map (fun sl => if fltb (snd sl) (fst sl) then 1%Z else 0%Z)
      (combine (Indicators.calculate_sma closes short_window)
               (Indicators.calculate_sma closes long_window)).

Definition signals (closes : list float) (short_window long_window : nat)
  : list float :=
  Indicators.diff
    (map (fun z => Fin (inject_Z z)) (positions closes short_window long_window)).

End Momentum.

Module MeanReversion.

(** The [signal] column of [MeanReversionStrategy.generate_signals]: 1
    where the RSI is below [rsi_oversold], then -1 where it is above
    [rsi_overbought]. *)
Definition signals (closes : list float) (rsi_period : nat)
    (rsi_oversold rsi_overbought : Q) : list Z :=
  map (fun r =>
         if fltb (Fin rsi_overbought) r then (-1)%Z
         else if fltb r (Fin rsi_oversold) then 1%Z
         else 0%Z)
      (Indicators.calculate_rsi closes rsi_period).

(** The [stop_loss] column:
    [df['close'] - (df['ATR'] * atr_multiplier)]. *)
Definition stop_loss (high low close : list float) (atr_period : nat)
    (atr_multiplier : Q) : list float :=
  map (fun ca => fsub (fst ca) (fmul (snd ca) (Fin atr_multiplier)))
      (combine close (Indicators.calculate_atr high low close atr_period)).

(** The frame handed to the accounting loop: the strategy's signal beside
    each close. *)
Definition bars (closes : list Q) (rsi_period : nat)
    (rsi_oversold rsi_overbought : Q) : list Backtester.Bar :=
  map (fun sc => Backtester.mkBar (fst sc) (snd sc))
      (combine (signals (map Fin closes) rsi_period rsi_oversold rsi_overbought)
               closes).

End MeanReversion.

(** * Properties *)

(** ** Truncation *)

Lemma int_of_nonneg (x : Q) :
  0 <= x -> (0 <= int_of x)%Z /\ inject_Z (int_of x) <= x.
Proof.
  intros Hx. destruct x as [n d]. unfold int_of; simpl.
  assert (Hn : (0 <= n)%Z) by (unfold Qle in Hx; simpl in Hx; lia).
  rewrite Z.quot_div_nonneg by lia. split.
  - apply Z.div_pos; lia.
  - change (n / Zpos d)%Z with (Qfloor (n # d)). apply Qfloor_le.
Qed.


Lemma int_of_lower (x : Q) : 0 <= x -> x < inject_Z (int_of x) + 1.
Proof.
  intros Hx.
  assert (E : int_of x = Qfloor x).
  { destruct x as [n d]. unfold int_of, Qfloor; simpl.
    apply Z.quot_div_nonneg; [| lia].
    unfold Qle in Hx; simpl in Hx. lia. }
  rewrite E. pose proof (Qlt_floor x) as H.
  rewrite inject_Z_plus in H. exact H.
Qed.


Lemma Qeq_bool_false_neq (x y : Q) : ~ x == y -> Qeq_bool x y = false.
Proof.
  intros H. destruct (Qeq_bool x y) eqn:E; [| reflexivity].
  apply Qeq_bool_eq in E. contradiction.
Qed.

Lemma Qlt_bool_iff (x y : Q) : Qlt_bool x y = true <-> x < y.
Proof.
  unfold Qlt_bool. rewrite negb_true_iff. split; intros H.
  - apply Qnot_le_lt. intros HL. apply Qle_bool_iff in HL. congruence.
  - destruct (Qle_bool y x) eqn:E; [| reflexivity].
    apply Qle_bool_iff in E. apply Qle_not_lt in E. contradiction.
Qed.

(** ** The accounting loop *)

Module BacktesterFacts.
Import Backtester.

Lemma bind_ok {A B : Type} (r : result A) (k : A -> result B) (b : B) :
  bind r k = Ok b -> exists a, r = Ok a /\ k a = Ok b.
Proof. destruct r; simpl; intros H; [eauto | discriminate]. Qed.

Lemma row_of_ok (st : State) (b : Bar) : row_ok b (st, row_of st b).
Proof.
  unfold row_ok; simpl. repeat split; try reflexivity.
  intros ->. ring.
Qed.

Lemma loop_rows_ok (bt : t) (bars : list Bar) :
  forall st tr, loop bt st bars = Ok tr -> Forall2 row_ok bars tr.
Proof.
  induction bars as [| b rest IH]; simpl; intros st tr H.
  - injection H as <-. constructor.
  - apply bind_ok in H as (st' & _ & H).
    apply bind_ok in H as (rows & Hrows & H).
    injection H as <-. constructor; [apply row_of_ok | eauto].
Qed.

Lemma run_trace_rows_ok (bt : t) (bars : list Bar) (tr : list (State * Row)) :
  run_trace bt bars = Ok tr -> Forall2 row_ok bars tr.
Proof.
  destruct bars as [| b rest]; simpl; intros H.
  - injection H as <-. constructor.
  - apply bind_ok in H as (rows & Hrows & H). injection H as <-.
    constructor; [| eapply loop_rows_ok; eauto].
    unfold row_ok; simpl. repeat split; try reflexivity; ring.
Qed.

(** C1. Every ledger returned by [run] is the row projection of the run's
    trace, and in every entry [total = cash + holdings] and
    [holdings = quantity * close] of that bar (hence [0] when flat). *)
Theorem ledger_entry_invariant (bt : t) (bars : list Bar) (ledger : list Row) :
  run bt bars = Ok ledger ->
  exists tr,
    run_trace bt bars = Ok tr
    /\ ledger = map snd tr
    /\ quantities bt bars = Ok (map (fun sr => position (fst sr)) tr)
    /\ Forall2 row_ok bars tr.
Proof.
  unfold run, quantities. intros H.
  apply bind_ok in H as (tr & Htr & H). injection H as <-.
  exists tr. rewrite Htr. simpl. repeat split; auto.
  now apply (run_trace_rows_ok bt).
Qed.

Lemma ledger_entry_invariant_witness :
  exists ledger,
    run scenario_B scenario_bars = Ok ledger
    /\ exists tr,
         run_trace scenario_B scenario_bars = Ok tr
         /\ ledger = map snd tr
         /\ quantities scenario_B scenario_bars
            = Ok (map (fun sr => position (fst sr)) tr)
         /\ Forall2 row_ok scenario_bars tr.
Proof.
  eexists. split; [vm_compute; reflexivity |].
  apply (ledger_entry_invariant scenario_B scenario_bars).
  vm_compute. reflexivity.
Defined.

(** *** What an entry costs, in exact arithmetic *)

Lemma buy_cost_bounded (c k price : Q) :
  0 <= c -> 0 <= k <= 1 -> 0 < price ->
  let shares := int_of ((c * (1 - k)) / price) in
  (0 <= shares)%Z
  /\ 0 <= c - (inject_Z shares * price + inject_Z shares * price * k).
Proof.
  intros Hc Hk Hp shares.
  assert (HX : 0 <= c * (1 - k)) by nra.
  assert (Hq : 0 <= (c * (1 - k)) / price).
  { apply Qle_shift_div_l; [assumption | lra]. }
  destruct (int_of_nonneg _ Hq) as [Hs Hle]. fold shares in Hs, Hle.
  split; [assumption |].
  assert (Hs' : 0 <= inject_Z shares).
  { change 0 with (inject_Z 0). rewrite <- Zle_Qle. assumption. }
  assert (Hcost : inject_Z shares * price <= c * (1 - k)).
  { apply Qle_trans with ((c * (1 - k)) / price * price).
    - apply Qmult_le_compat_r; [assumption | lra].
    - assert (E : (c * (1 - k)) / price * price == c * (1 - k))
        by (field; intros E0; rewrite E0 in Hp; lra).
      rewrite E. apply Qle_refl. }
  set (cost := inject_Z shares * price) in *.
  assert (H0 : 0 <= cost) by (unfold cost; nra).
  nra.
Qed.

Lemma step_total (bt : t) (st : State) (b : Bar) :
  ~ close b == 0 -> exists st', step bt st b = Ok st'.
Proof.
  intros Hp. unfold step, shares_to_buy.
  rewrite (Qeq_bool_false_neq _ _ Hp).
  destruct ((signal b >? 0)%Z && (position st =? 0)%Z); simpl; eauto.
  destruct ((signal b <? 0)%Z && (position st >? 0)%Z); eauto.
Qed.

(** *** The two scenarios *)

(** C3 (as the code runs it). On prices [100, 110, 90, 120] with signals
    [0, +1, -1, 0] and capital 1000: without commission the engine buys 9
    shares for 990 (cash 10) and sells them for 810, final total 820; with
    commission 0.01 it also buys 9 shares, since 1000 * 0.99 / 110 = 9
    exactly (cost 990, fee 9.9, cash 0.1), and sells for 810 less a fee of
    8.1, final total 802. *)
Theorem scenario_accounting :
  (exists tr,
      run_trace scenario_A scenario_bars = Ok tr
      /\ trace_view tr
         = [(0%Z, 1000, 0, 1000); (9%Z, 10, 990, 1000);
            (0%Z, 820, 0, 820); (0%Z, 820, 0, 820)])
  /\ (exists ledger total_A,
        run scenario_A scenario_bars = Ok ledger
        /\ final_total ledger = Some total_A /\ total_A == 820)
  /\ (exists tr,
        run_trace scenario_B scenario_bars = Ok tr
        /\ trace_view tr
           = [(0%Z, 1000, 0, 1000); (9%Z, 1 # 10, 990, 9901 # 10);
              (0%Z, 802, 0, 802); (0%Z, 802, 0, 802)])
  /\ (exists ledger total_B,
        run scenario_B scenario_bars = Ok ledger
        /\ final_total ledger = Some total_B /\ total_B == 802).
Proof.
  repeat split.
  - eexists. split; [vm_compute; reflexivity | vm_compute; reflexivity].
  - do 2 eexists. split; [vm_compute; reflexivity |].
    split; [vm_compute; reflexivity | reflexivity].
  - eexists. split; [vm_compute; reflexivity | vm_compute; reflexivity].
  - do 2 eexists. split; [vm_compute; reflexivity |].
    split; [vm_compute; reflexivity | reflexivity].
Qed.

(** With commission 0.01 the final total of the scenario is 802, not 824. *)
Lemma scenario_B_final_total_not_824 :
  exists ledger total_B,
    run scenario_B scenario_bars = Ok ledger
    /\ final_total ledger = Some total_B
    /\ total_B == 802
    /\ ~ total_B == 824.
Proof.
  do 2 eexists. split; [vm_compute; reflexivity |].
  split; [vm_compute; reflexivity |].
  split; [reflexivity | intros H; discriminate H].
Qed.

(** *** No input validation *)

Lemma loop_total (bt : t) (bars : list Bar) :
  Forall (fun b => ~ close b == 0) bars ->
  forall st, exists tr, loop bt st bars = Ok tr.
Proof.
  induction 1 as [| b rest Hb _ IH]; intros st; simpl.
  - eauto.
  - destruct (step_total bt st b Hb) as [st' ->]; simpl.
    destruct (IH st') as [tr ->]; simpl. eauto.
Qed.

Lemma step_raise (bt : t) (st : State) (b : Bar) (e : error) :
  step bt st b = Raise e -> close b == 0 /\ (signal b > 0)%Z.
Proof.
  unfold step, shares_to_buy.
  destruct ((signal b >? 0)%Z && (position st =? 0)%Z) eqn:E; simpl.
  - destruct (Qeq_bool (close b) 0) eqn:E0; simpl; [| discriminate].
    intros _. apply andb_prop in E as [E _]. split.
    + now apply Qeq_bool_eq.
    + lia.
  - destruct ((signal b <? 0)%Z && (position st >? 0)%Z); discriminate.
Qed.

Lemma loop_raise (bt : t) (bars : list Bar) (e : error) :
  forall st, loop bt st bars = Raise e ->
  Exists (fun b => close b == 0 /\ (signal b > 0)%Z) bars.
Proof.
  induction bars as [| b rest IH]; simpl; intros st H; [discriminate |].
  destruct (step bt st b) as [st' |] eqn:Est; simpl in H.
  - destruct (loop bt st' rest) eqn:El; simpl in H; [discriminate |].
    injection H as ->. right. eapply IH; eauto.
  - left. eapply step_raise; eauto.
Qed.

(** C4 (as the code runs it). [run] validates nothing: on every series
    whose closes are non-zero, the empty series and series with negative closes
    included, it returns a ledger with one entry per bar; it can only
    fail with the arithmetic error of a Buy bar, after the first, whose
    close is zero, and a failure returns no ledger. *)
Theorem run_validates_nothing (bt : t) (bars : list Bar) :
  (Forall (fun b => ~ close b == 0) bars ->
   exists ledger, run bt bars = Ok ledger /\ length ledger = length bars)
  /\ (forall e, run bt bars = Raise e ->
      e = NonFiniteToInt
      /\ Exists (fun b => close b == 0 /\ (signal b > 0)%Z) (tl bars)).
Proof.
  split.
  - intros Hbars. unfold run. destruct bars as [| b0 rest]; simpl.
    + exists []. split; reflexivity.
    + inversion Hbars as [| ? ? _ Hrest]; subst.
      destruct (loop_total bt rest Hrest (init bt)) as [tr Htr].
      rewrite Htr; simpl. eexists; split; [reflexivity |].
      simpl. rewrite length_map. f_equal.
      symmetry. eapply Forall2_length. eapply loop_rows_ok; eauto.
  - intros e H. split; [destruct e; reflexivity |].
    unfold run in H. destruct bars as [| b0 rest]; simpl in *; [discriminate |].
    destruct (loop bt (init bt) rest) eqn:El; simpl in H; [discriminate |].
    injection H as ->. eapply loop_raise; eauto.
Qed.

Lemma run_validates_nothing_witness :
  Forall (fun b => ~ close b == 0) [mkBar 0 100; mkBar 1 (-5)]
  /\ exists ledger,
       run scenario_A [mkBar 0 100; mkBar 1 (-5)] = Ok ledger
       /\ length ledger = 2%nat.
Proof.
  assert (H : Forall (fun b => ~ close b == 0) [mkBar 0 100; mkBar 1 (-5)]).
  { repeat constructor; simpl; intros E; discriminate E. }
  split; [exact H |].
  exact (proj1 (run_validates_nothing scenario_A [mkBar 0 100; mkBar 1 (-5)]) H).
Defined.

(** The empty series and a series with a negative close are both inputs the
    specification rejects, and [run] returns a ledger for each. *)
Lemma run_accepts_rejected_inputs :
  rejected_by_spec []
  /\ run scenario_A [] = Ok []
  /\ rejected_by_spec [mkBar 0 100; mkBar 0 (-5)]
  /\ exists ledger,
       run scenario_A [mkBar 0 100; mkBar 0 (-5)] = Ok ledger
       /\ length ledger = 2%nat.
Proof.
  split; [left; reflexivity |].
  split; [reflexivity |].
  split.
  - right. right. left. unfold Qle; simpl. lia.
  - eexists. split; [vm_compute; reflexivity | reflexivity].
Qed.

(** *** The first bar *)

(** C5. The first bar is never traded: whatever bar stands at index 0, the
    run is the same, ledger entry 0 holds the initial capital as cash and
    total with no holdings, the quantity after bar 0 is 0, and a series of
    one bar yields exactly that one entry. *)
Theorem first_bar_never_traded (bt : t) (b : Bar) (rest : list Bar)
    (ledger : list Row) :
  run bt (b :: rest) = Ok ledger ->
  hd_error ledger
    = Some {| holdings := 0; cash := initial_capital bt;
              total := initial_capital bt |}
  /\ (forall b', run bt (b' :: rest) = Ok ledger)
  /\ (exists qs, quantities bt (b :: rest) = Ok (0%Z :: qs))
  /\ run bt [b]
     = Ok [{| holdings := 0; cash := initial_capital bt;
              total := initial_capital bt |}].
Proof.
  unfold run, quantities; simpl. intros H.
  destruct (loop bt (init bt) rest) as [rows |]; simpl in *; [| discriminate].
  injection H as <-. repeat split; eauto.
Qed.

Lemma first_bar_never_traded_witness :
  exists ledger,
    run scenario_A (mkBar 1 50 :: tl scenario_bars) = Ok ledger
    /\ hd_error ledger = Some {| holdings := 0; cash := 1000; total := 1000 |}
    /\ (forall b', run scenario_A (b' :: tl scenario_bars) = Ok ledger)
    /\ (exists qs,
          quantities scenario_A (mkBar 1 50 :: tl scenario_bars) = Ok (0%Z :: qs))
    /\ run scenario_A [mkBar 1 50]
       = Ok [{| holdings := 0; cash := 1000; total := 1000 |}].
Proof.
  eexists. split; [vm_compute; reflexivity |].
  apply (first_bar_never_traded scenario_A (mkBar 1 50) (tl scenario_bars)).
  vm_compute. reflexivity.
Defined.

(** *** A Buy that buys nothing *)



End BacktesterFacts.

(** ** The evaluation metrics *)

Module EvaluationFacts.
Import Evaluation.

(** *** Maximum drawdown *)

Lemma cummax_from_prefix (xs : list Q) :
  forall m,
    cummax_from m xs
    = map (fun i => fold_left Qmax (firstn (S i) xs) m) (seq 0 (length xs)).
Proof.
  induction xs as [| x xs IH]; intros m; [reflexivity |].
  cbn [cummax_from length seq map firstn fold_left]. f_equal.
  rewrite IH, <- seq_shift, map_map. reflexivity.
Qed.

Lemma cummax_running_max (tv : list Q) :
  cummax tv = map (spec_running_max tv) (seq 0 (length tv)).
Proof.
  destruct tv as [| x xs]; [reflexivity |].
  cbn [cummax length seq map]. f_equal.
  rewrite cummax_from_prefix, <- seq_shift, map_map. reflexivity.
Qed.

Lemma nth_seq_self {A : Type} (d : A) (l : list A) :
  l = map (fun i => nth i l d) (seq 0 (length l)).
Proof.
  induction l as [| x l IH]; [reflexivity |].
  cbn [length seq map nth]. f_equal.
  rewrite <- seq_shift, map_map. exact IH.
Qed.

Lemma combine_map_same {A B C : Type} (f : A -> B) (g : A -> C) (l : list A) :
  combine (map f l) (map g l) = map (fun x => (f x, g x)) l.
Proof. induction l; simpl; congruence. Qed.

Lemma pick_smaller_is_Qmin (m y : Q) :
  (if Qlt_bool y m then y else m) = Qmin m y.
Proof.
  unfold Qmin, GenericMinMax.gmin.
  destruct (Qlt_bool y m) eqn:E.
  - apply Qlt_bool_iff in E. apply Qgt_alt in E. now rewrite E.
  - destruct (m ?= y) eqn:C; try reflexivity.
    apply Qgt_alt in C. apply Qlt_bool_iff in C. congruence.
Qed.

Lemma fold_min_Fin (ds : list Q) :
  forall d,
    fold_left (fun m y => if fltb y m then y else m) (map Fin ds) (Fin d)
    = Fin (fold_left Qmin ds d).
Proof.
  induction ds as [| y ds IH]; intros d; [reflexivity |].
  simpl. rewrite <- pick_smaller_is_Qmin.
  destruct (Qlt_bool y d); apply IH.
Qed.

Lemma dropna_Fin (qs : list Q) : dropna (map Fin qs) = map Fin qs.
Proof. induction qs; simpl; [reflexivity | unfold dropna in *; congruence]. Qed.

Lemma series_min_Fin (d : Q) (ds : list Q) :
  series_min (map Fin (d :: ds)) = Fin (fold_left Qmin ds d).
Proof.
  unfold series_min. rewrite dropna_Fin. simpl. apply fold_min_Fin.
Qed.

Lemma max_drawdown_refines_spec (tv : list Q) :
  tv <> [] ->
  (forall i, (i < length tv)%nat -> ~ spec_running_max tv i == 0) ->
  calculate_max_drawdown tv = Fin (spec_max_drawdown tv).
Proof.
  intros Hne Hnz. unfold calculate_max_drawdown, spec_max_drawdown.
  rewrite cummax_running_max.
  rewrite (nth_seq_self 0 tv) at 1.
  rewrite combine_map_same, map_map.
  assert (E : map (fun i =>
                     fdiv (fsub (Fin (fst (nth i tv 0, spec_running_max tv i)))
                                (Fin (snd (nth i tv 0, spec_running_max tv i))))
                          (Fin (snd (nth i tv 0, spec_running_max tv i))))
                  (seq 0 (length tv))
              = map Fin (map (spec_drawdown tv) (seq 0 (length tv)))).
  { rewrite map_map. apply map_ext_in. intros i Hi. apply in_seq in Hi.
    simpl. rewrite (Qeq_bool_false_neq _ _ (Hnz i ltac:(lia))). reflexivity. }
  rewrite E.
  destruct (map (spec_drawdown tv) (seq 0 (length tv))) as [| d ds] eqn:Ed.
  - apply (f_equal (@length Q)) in Ed. rewrite length_map, length_seq in Ed.
    destruct tv; [contradiction | discriminate].
  - apply series_min_Fin.
Qed.

(** C7 (as the code runs it). Where no running maximum is zero,
    [calculate_max_drawdown] returns the minimum over [i] of
    [(total_value[i] - M[i]) / M[i]], [M[i]] the maximum of
    [total_value[0..i]]; for a single-entry ledger that is 0; and for
    [100, 120, 90, 130] the result is -0.25. *)
Theorem max_drawdown_is_min_drawdown (tv : list Q) :
  tv <> [] ->
  (forall i, (i < length tv)%nat -> ~ spec_running_max tv i == 0) ->
  calculate_max_drawdown tv = Fin (spec_max_drawdown tv)
  /\ (length tv = 1%nat -> feq (calculate_max_drawdown tv) (Fin 0))
  /\ feq (calculate_max_drawdown [100; 120; 90; 130]) (Fin (- (1 # 4))).
Proof.
  intros Hne Hnz. split; [now apply max_drawdown_refines_spec |]. split.
  - intros Hlen. destruct tv as [| v [| ? ?]]; try discriminate.
    assert (Hv : ~ v == 0) by (apply (Hnz 0%nat); simpl; lia).
    unfold calculate_max_drawdown, series_min; simpl.
    rewrite (Qeq_bool_false_neq _ _ Hv). simpl. field. exact Hv.
  - vm_compute. reflexivity.
Qed.

Lemma max_drawdown_is_min_drawdown_witness :
  calculate_max_drawdown [1000] = Fin (spec_max_drawdown [1000])
  /\ (length [1000] = 1%nat -> feq (calculate_max_drawdown [1000]) (Fin 0))
  /\ feq (calculate_max_drawdown [100; 120; 90; 130]) (Fin (- (1 # 4))).
Proof.
  apply (max_drawdown_is_min_drawdown [1000]).
  - discriminate.
  - intros i Hi.
    destruct i as [| i]; [| simpl in Hi; lia];
      vm_compute; intros E; discriminate E.
Defined.

(** A single-entry ledger of value 0 (a run with no capital) has drawdown
    [0 / 0]: the result is NaN, not 0. *)
Lemma max_drawdown_single_zero_entry :
  (exists ledger,
      Backtester.run (Backtester.mk 0 0) [Backtester.mkBar 0 100] = Ok ledger
      /\ map Backtester.total ledger = [0])
  /\ calculate_max_drawdown [0] = NaN
  /\ ~ feq (calculate_max_drawdown [0]) (Fin 0).
Proof.
  split; [eexists; split; reflexivity |].
  split; [reflexivity | intros H; exact H].
Qed.

(** *** Sample variance, in exact arithmetic *)

Lemma fold_fadd_Fin (xs : list Q) :
  forall a, fold_left fadd (map Fin xs) (Fin a) = Fin (fold_left Qplus xs a).
Proof. induction xs as [| x xs IH]; intros a; simpl; [reflexivity | apply IH]. Qed.

Lemma fold_Qplus_const (x : Q) (xs : list Q) :
  Forall (fun y => y == x) xs ->
  forall a, fold_left Qplus xs a == a + inject_Z (Z.of_nat (length xs)) * x.
Proof.
  induction 1 as [| y ys Hy _ IH]; intros a.
  - simpl. ring.
  - cbn [fold_left length]. rewrite IH, Hy, Nat2Z.inj_succ.
    unfold Z.succ. rewrite inject_Z_plus. ring.
Qed.

Lemma inject_nat_nonzero (n : nat) :
  (0 < n)%nat -> ~ inject_Z (Z.of_nat n) == 0.
Proof.
  intros Hn E. unfold Qeq in E; simpl in E. lia.
Qed.

(** Read as exact, the sample variance of at least two equal finite
    observations is 0. *)
Lemma series_var_const (x : Q) (xs : list Q) :
  Forall (fun y => y == x) xs -> (2 <= length xs)%nat ->
  exists v, series_var (map Fin xs) = Fin v /\ v == 0.
Proof.
  intros Hall Hlen. unfold series_var.
  rewrite dropna_Fin, length_map.
  replace (length xs <=? 1)%nat with false by (symmetry; apply Nat.leb_gt; lia).
  rewrite fold_fadd_Fin. cbn [fdiv].
  set (n := inject_Z (Z.of_nat (length xs))).
  assert (Hn : ~ n == 0) by (apply inject_nat_nonzero; lia).
  rewrite (Qeq_bool_false_neq _ _ Hn).
  set (avg := fold_left Qplus xs 0 / n).
  assert (Havg : avg == x).
  { unfold avg. rewrite (fold_Qplus_const x xs Hall). fold n. field. exact Hn. }
  rewrite map_map.
  assert (E : map (fun y => let d := fsub (Fin avg) (Fin y) in fmul d d) xs
              = map Fin (map (fun y => (avg + - y) * (avg + - y)) xs))
    by (rewrite map_map; reflexivity).
  cbv zeta in E |- *. rewrite E, fold_fadd_Fin. cbn [fdiv].
  assert (Hm : ~ inject_Z (Z.of_nat (length xs - 1)) == 0)
    by (apply inject_nat_nonzero; lia).
  rewrite (Qeq_bool_false_neq _ _ Hm).
  eexists. split; [reflexivity |].
  assert (Hsq : Forall (fun y => y == 0)
                       (map (fun y => (avg + - y) * (avg + - y)) xs)).
  { apply Forall_map. eapply Forall_impl; [| exact Hall].
    intros y Hy. cbv beta in Hy |- *. rewrite Hy, Havg. ring. }
  rewrite (fold_Qplus_const 0 _ Hsq). field. exact Hm.
Qed.

Lemma series_var_dropna (s : list float) :
  series_var s = series_var (dropna s).
Proof.
  unfold series_var.
  assert (E : dropna (dropna s) = dropna s).
  { unfold dropna. induction s as [| x s IH]; [reflexivity |].
    simpl. destruct (negb (is_nan x)) eqn:Ex; simpl; rewrite ?Ex, IH; reflexivity. }
  rewrite E. reflexivity.
Qed.

(** *** Win rate *)

Lemma gtb_0_false (s : Z) : (s <= 0)%Z -> (s >? 0)%Z = false.
Proof. intros H. rewrite Z.gtb_ltb. apply Z.ltb_ge. lia. Qed.

Lemma gtb_0_true (s : Z) : (s > 0)%Z -> (s >? 0)%Z = true.
Proof. intros H. rewrite Z.gtb_ltb. apply Z.ltb_lt. lia. Qed.

Lemma scan_trades_windows (returns : list float) (signals : list Z) :
  forall i position,
    scan_trades returns i position signals
    = map (window_return returns) (scan_windows i position signals).
Proof.
  induction signals as [| s rest IH]; intros i position; [reflexivity |].
  simpl. destruct (s >? 0)%Z; [apply IH |].
  destruct ((s <? 0)%Z && (0 <? position)%nat); [| apply IH].
  simpl. rewrite IH. reflexivity.
Qed.

Lemma scan_windows_no_signal (signals : list Z) :
  filter (fun s => negb (s =? 0)%Z) signals = [] ->
  forall i position, scan_windows i position signals = [].
Proof.
  induction signals as [| s rest IH]; intros Hf i position; [reflexivity |].
  simpl in Hf. destruct (s =? 0)%Z eqn:E; simpl in Hf; [| discriminate].
  apply Z.eqb_eq in E; subst s. simpl. apply IH, Hf.
Qed.

(** The two early returns of [calculate_win_rate] give what the general
    case gives on an empty list of trades. *)
Lemma calculate_win_rate_stats (signals : list Z) (returns : list float) :
  calculate_win_rate signals returns
  = spec_stats (scan_trades returns 0 0 signals).
Proof.
  unfold calculate_win_rate.
  destruct (filter (fun s => negb (s =? 0)%Z) signals) as [| s0 l] eqn:Ef.
  - simpl. rewrite scan_trades_windows, (scan_windows_no_signal _ Ef).
    reflexivity.
  - simpl. destruct (scan_trades returns 0 0 signals); reflexivity.
Qed.

(** Every window the loop records starts at an index above 0. *)
Lemma scan_windows_entry_positive (signals : list Z) :
  forall i position,
    Forall (fun w => (0 < fst w)%nat) (scan_windows i position signals).
Proof.
  induction signals as [| s rest IH]; intros i position; [constructor |].
  simpl. destruct (s >? 0)%Z; [apply IH |].
  destruct (s <? 0)%Z; simpl; [| apply IH].
  destruct (0 <? position)%nat eqn:E; [| apply IH].
  constructor; [simpl; now apply Nat.ltb_lt | apply IH].
Qed.

(** From index 1 on, the loop variable [position] codes the open trade
    faithfully: 0 for none, the entry index otherwise. *)
Lemma scan_windows_from_1 (signals : list Z) :
  forall i position,
    (1 <= i)%nat ->
    scan_windows i position signals
    = spec_trade_windows i (if (position =? 0)%nat then None else Some position)
        signals.
Proof.
  induction signals as [| s rest IH]; intros i position Hi; [reflexivity |].
  simpl. destruct (s >? 0)%Z.
  - rewrite IH by lia. destruct i; [lia | reflexivity].
  - destruct (s <? 0)%Z; simpl.
    + destruct position as [| p]; simpl.
      * rewrite IH by lia. reflexivity.
      * rewrite IH by lia. reflexivity.
    + apply IH. lia.
Qed.

(** When the series does not open with a Buy, [calculate_win_rate] computes
    the statistics of the Buy-then-later-Sell pairs. *)
Lemma win_rate_refines_spec_without_buy_at_0
    (signals : list Z) (returns : list float) :
  (hd 0%Z signals <= 0)%Z ->
  calculate_win_rate signals returns = spec_win_rate signals returns.
Proof.
  intros Hhd. rewrite calculate_win_rate_stats, scan_trades_windows.
  unfold spec_win_rate. do 2 f_equal.
  destruct signals as [| s rest]; [reflexivity |].
  simpl in Hhd. simpl.
  rewrite (gtb_0_false s) by lia.
  rewrite andb_false_r.
  rewrite (scan_windows_from_1 rest 1 0) by lia. simpl.
  destruct (s <? 0)%Z; reflexivity.
Qed.

(** C9 (failing input). On signals [+1, -1] the Buy at index 0 and the Sell
    at index 1 form a completed trade, of return -0.1 over the window
    [[0, 1]], a loss; [calculate_win_rate] reports no trade at all. *)
Theorem win_rate_drops_trade_entered_at_0 :
  spec_trade_windows 0 None [1; -1]%Z = [(0, 1)%nat]
  /\ total_trades (spec_win_rate [1; -1]%Z [NaN; Fin (- (1 # 10))]) = 1%nat
  /\ losing_trades (spec_win_rate [1; -1]%Z [NaN; Fin (- (1 # 10))]) = 1%nat
  /\ calculate_win_rate [1; -1]%Z [NaN; Fin (- (1 # 10))] = zero_stats.
Proof. repeat split; reflexivity. Qed.

Lemma spec_windows_open_trade_closes (rest : list Z) :
  Exists (fun s => (s < 0)%Z) rest ->
  forall i e, spec_trade_windows i (Some e) rest <> [].
Proof.
  induction 1 as [s rest Hs | s rest _ IH]; intros i e; simpl.
  - destruct (s >? 0)%Z eqn:E; [lia |].
    replace (s <? 0)%Z with true by (symmetry; apply Z.ltb_lt; lia).
    discriminate.
  - destruct (s >? 0)%Z; [apply IH |].
    destruct (s <? 0)%Z; [discriminate | apply IH].
Qed.

Lemma scan_windows_no_buy (rest : list Z) :
  Forall (fun s => (s <= 0)%Z) rest ->
  forall i, scan_windows i 0 rest = [].
Proof.
  induction 1 as [| s rest Hs _ IH]; intros i; [reflexivity |].
  simpl. rewrite (gtb_0_false s) by lia.
  rewrite andb_false_r. apply IH.
Qed.

(** C10. A Buy at index 0 is never the entry of a counted trade: the
    statistics are those of the series with a Hold at index 0, no recorded
    window starts at index 0, and when no other Buy follows the function
    reports no trade at all, also when a Sell follows and a
    Buy-then-later-Sell pair therefore exists. *)
Theorem buy_at_index_0_never_counted
    (s0 : Z) (rest : list Z) (returns : list float) :
  (s0 > 0)%Z ->
  calculate_win_rate (s0 :: rest) returns
    = calculate_win_rate (0%Z :: rest) returns
  /\ Forall (fun w => fst w <> 0%nat) (scan_windows 0 0 (s0 :: rest))
  /\ (Forall (fun s => (s <= 0)%Z) rest ->
      calculate_win_rate (s0 :: rest) returns = zero_stats
      /\ total_trades (calculate_win_rate (s0 :: rest) returns) = 0%nat
      /\ (Exists (fun s => (s < 0)%Z) rest ->
          spec_trade_windows 0 None (s0 :: rest) <> [])).
Proof.
  intros Hs0.
  assert (E : scan_windows 0 0 (s0 :: rest) = scan_windows 1 0 rest).
  { simpl. rewrite (gtb_0_true s0) by lia.
    reflexivity. }
  split; [| split].
  - rewrite !calculate_win_rate_stats, !scan_trades_windows, E. reflexivity.
  - eapply Forall_impl; [| apply scan_windows_entry_positive].
    intros w Hw. cbv beta in Hw. lia.
  - intros Hrest.
    assert (Z0 : calculate_win_rate (s0 :: rest) returns = zero_stats).
    { rewrite calculate_win_rate_stats, scan_trades_windows, E.
      rewrite (scan_windows_no_buy rest Hrest). reflexivity. }
    split; [exact Z0 |]. split; [rewrite Z0; reflexivity |].
    intros Hsell. simpl.
    rewrite (gtb_0_true s0) by lia.
    now apply spec_windows_open_trade_closes.
Qed.

Lemma buy_at_index_0_never_counted_witness :
  calculate_win_rate [1; 0; -1]%Z [NaN; Fin (1 # 10); Fin (1 # 10)]
    = calculate_win_rate [0; 0; -1]%Z [NaN; Fin (1 # 10); Fin (1 # 10)]
  /\ Forall (fun w => fst w <> 0%nat) (scan_windows 0 0 [1; 0; -1]%Z)
  /\ (Forall (fun s => (s <= 0)%Z) [0; -1]%Z ->
      calculate_win_rate [1; 0; -1]%Z [NaN; Fin (1 # 10); Fin (1 # 10)]
        = zero_stats
      /\ total_trades
           (calculate_win_rate [1; 0; -1]%Z [NaN; Fin (1 # 10); Fin (1 # 10)])
         = 0%nat
      /\ (Exists (fun s => (s < 0)%Z) [0; -1]%Z ->
          spec_trade_windows 0 None [1; 0; -1]%Z <> [])).
Proof.
  apply (buy_at_index_0_never_counted 1 [0; -1]%Z
           [NaN; Fin (1 # 10); Fin (1 # 10)]).
  lia.
Defined.

End EvaluationFacts.

(** ** Further properties of the accounting loop *)

Module BacktesterMore.
Import Backtester BacktesterFacts.

(** *** No look-ahead *)

Lemma loop_app (bt : t) (bars more : list Bar) :
  forall st,
    loop bt st (bars ++ more)
    = (tr <- loop bt st bars ;;
       tr' <- loop bt (last (map fst tr) st) more ;;
       Ok (tr ++ tr')).
Proof.
  induction bars as [| b rest IH]; intros st.
  - simpl. destruct (loop bt st more); reflexivity.
  - cbn [app loop]. destruct (step bt st b) as [st' |]; [| reflexivity].
    cbn [bind]. rewrite IH.
    destruct (loop bt st' rest) as [tr |]; [| reflexivity]. cbn [bind].
    replace (last (map fst ((st', row_of st' b) :: tr)) st)
      with (last (map fst tr) st').
    + destruct (loop bt (last (map fst tr) st') more); reflexivity.
    + cbn [map fst]. destruct (map fst tr) as [| s l] eqn:E; [reflexivity |].
      change (last (st' :: s :: l) st) with (last (s :: l) st).
      clear E. revert s. induction l as [| s' l IHl]; intros s; [reflexivity |].
      change (last (s :: s' :: l) st') with (last (s' :: l) st').
      change (last (s :: s' :: l) st) with (last (s' :: l) st). apply IHl.
Qed.

Lemma loop_length (bt : t) (bars : list Bar) :
  forall st tr, loop bt st bars = Ok tr -> length tr = length bars.
Proof.
  intros st tr H. symmetry. eapply Forall2_length, loop_rows_ok, H.
Qed.

(** X1. The ledger of a series is decided bar by bar, with no look at later
    bars: if [run] returns a ledger on [bars ++ more], then on [bars] alone
    it returns the first [length bars] rows of that ledger. *)
Theorem run_has_no_look_ahead (bt : t) (bars more : list Bar)
    (ledger : list Row) :
  run bt (bars ++ more) = Ok ledger ->
  run bt bars = Ok (firstn (length bars) ledger).
Proof.
  unfold run. destruct bars as [| b0 rest]; [reflexivity |].
  cbn [app run_trace length]. rewrite loop_app.
  destruct (loop bt (init bt) rest) as [tr |] eqn:E; [| discriminate].
  cbn [bind].
  destruct (loop bt (last (map fst tr) (init bt)) more) as [tr' |];
    [| discriminate].
  cbn [bind]. intros H. injection H as <-.
  cbn [map firstn]. do 2 f_equal.
  rewrite map_app, firstn_app.
  rewrite length_map, (loop_length _ _ _ _ E), Nat.sub_diag.
  cbn [firstn]. rewrite app_nil_r.
  symmetry. apply firstn_all2. rewrite length_map, (loop_length _ _ _ _ E). lia.
Qed.

Lemma run_has_no_look_ahead_witness :
  exists ledger,
    run scenario_A (firstn 2 scenario_bars ++ skipn 2 scenario_bars) = Ok ledger
    /\ run scenario_A (firstn 2 scenario_bars)
       = Ok (firstn (length (firstn 2 scenario_bars)) ledger).
Proof.
  eexists. split; [vm_compute; reflexivity |].
  apply (run_has_no_look_ahead scenario_A (firstn 2 scenario_bars)
           (skipn 2 scenario_bars)).
  vm_compute. reflexivity.
Defined.

(** *** Without a Buy nothing happens *)

Lemma step_without_buy (bt : t) (b : Bar) :
  (signal b <= 0)%Z -> step bt (init bt) b = Ok (init bt).
Proof.
  intros Hs. unfold step. simpl.
  replace (signal b >? 0)%Z with false
    by (symmetry; rewrite Z.gtb_ltb; apply Z.ltb_ge; lia).
  simpl. rewrite andb_false_r. reflexivity.
Qed.

Lemma loop_without_buy (bt : t) (bars : list Bar) :
  Forall (fun b => (signal b <= 0)%Z) bars ->
  loop bt (init bt) bars = Ok (map (fun b => (init bt, row_of (init bt) b)) bars).
Proof.
  induction 1 as [| b rest Hb _ IH]; [reflexivity |].
  cbn [loop map]. rewrite (step_without_buy bt b Hb). cbn [bind].
  rewrite IH. reflexivity.
Qed.

Lemma flat_ledger_without_buy (bt : t) (bars : list Bar) :
  Forall (fun b => (signal b <= 0)%Z) (tl bars) ->
  exists ledger,
    run bt bars = Ok ledger
    /\ length ledger = length bars
    /\ Forall (fun row => cash row = initial_capital bt
                          /\ holdings row == 0
                          /\ total row == initial_capital bt) ledger
    /\ quantities bt bars = Ok (repeat 0%Z (length bars)).
Proof.
  intros Hs. unfold run, quantities. destruct bars as [| b0 rest].
  - exists []. repeat split; constructor.
  - cbn [tl] in Hs. cbn [run_trace]. rewrite (loop_without_buy bt rest Hs).
    cbn [bind]. eexists. split; [reflexivity |].
    split; [cbn [map length]; rewrite !length_map; reflexivity |]. split.
    + cbn [map snd]. constructor.
      * simpl. repeat split; reflexivity.
      * rewrite map_map. apply Forall_map, Forall_forall. intros b _. simpl.
        repeat split; try reflexivity; ring.
    + f_equal. cbn [map fst length repeat]. f_equal.
      rewrite map_map. simpl. clear Hs.
      induction rest as [| b rest IH]; [reflexivity | simpl; now rewrite IH].
Qed.

(** X2. When no bar after the first carries a Buy signal, [run] never
    fails, whatever the closes are (zero and negative closes included), and
    the ledger is flat: every entry has the initial capital as cash, no
    holdings, and the initial capital as total; the quantity is 0
    throughout. *)
Theorem run_without_buy_is_flat (bt : t) (bars : list Bar) :
  Forall (fun b => (signal b <= 0)%Z) (tl bars) ->
  exists ledger,
    run bt bars = Ok ledger
    /\ length ledger = length bars
    /\ Forall (fun row => cash row = initial_capital bt
                          /\ holdings row == 0
                          /\ total row == initial_capital bt) ledger
    /\ quantities bt bars = Ok (repeat 0%Z (length bars)).
Proof. exact (flat_ledger_without_buy bt bars). Qed.

Lemma run_without_buy_is_flat_witness :
  exists ledger,
    run scenario_B [mkBar 1 100; mkBar (-1) 0; mkBar 0 (-3)] = Ok ledger
    /\ length ledger = 3%nat
    /\ Forall (fun row => cash row = 1000
                          /\ holdings row == 0 /\ total row == 1000) ledger
    /\ quantities scenario_B [mkBar 1 100; mkBar (-1) 0; mkBar 0 (-3)]
       = Ok [0; 0; 0]%Z.
Proof.
  apply (run_without_buy_is_flat scenario_B
           [mkBar 1 100; mkBar (-1) 0; mkBar 0 (-3)]).
  repeat constructor; simpl; lia.
Defined.

(** *** What a trade costs *)

(** X3. On a bar with a positive close, from a state with non-negative
    cash and quantity and a commission rate in [[0,1]], the step succeeds
    and changes the value of the book at that bar's close (cash plus
    quantity times close) by exactly minus the commission on the traded
    amount, so a trade never adds value. *)
Theorem trade_costs_exactly_the_fee (bt : t) (st : State) (b : Bar) :
  0 <= st_cash st ->
  0 <= commission bt <= 1 ->
  0 < close b ->
  (0 <= position st)%Z ->
  exists st',
    step bt st b = Ok st'
    /\ total (row_of st' b)
       == total (row_of st b)
          - commission bt
            * (inject_Z (Z.abs (position st' - position st)) * close b)
    /\ total (row_of st' b) <= total (row_of st b).
Proof.
  intros Hc Hk Hp Hpos.
  assert (Hfee : forall st',
             total (row_of st' b)
             == total (row_of st b)
                - commission bt
                  * (inject_Z (Z.abs (position st' - position st)) * close b) ->
             total (row_of st' b) <= total (row_of st b)).
  { intros st' E. rewrite E.
    assert (H0 : 0 <= inject_Z (Z.abs (position st' - position st))).
    { change 0 with (inject_Z 0). rewrite <- Zle_Qle. apply Z.abs_nonneg. }
    assert (H1 : 0 <= inject_Z (Z.abs (position st' - position st)) * close b)
      by (apply Qmult_le_0_compat; lra).
    assert (H2 : 0 <= commission bt
                      * (inject_Z (Z.abs (position st' - position st)) * close b))
      by (apply Qmult_le_0_compat; lra).
    lra. }
  unfold step, shares_to_buy. rewrite Qeq_bool_false_neq by lra.
  destruct ((signal b >? 0)%Z && (position st =? 0)%Z) eqn:Ebuy; cbn [bind].
  - apply andb_prop in Ebuy as [_ E0]. apply Z.eqb_eq in E0.
    destruct (buy_cost_bounded (st_cash st) (commission bt) (close b))
      as [Hs _]; auto.
    eexists. split; [reflexivity |].
    match goal with |- ?A /\ _ => assert (E : A) end.
    { cbn [row_of total position st_cash]. rewrite E0, Z.sub_0_r.
      rewrite Z.abs_eq by exact Hs. ring. }
    split; [exact E | apply Hfee, E].
  - destruct ((signal b <? 0)%Z && (position st >? 0)%Z) eqn:Esell.
    + eexists. split; [reflexivity |].
      match goal with |- ?A /\ _ => assert (E : A) end.
      { cbn [row_of total position st_cash]. rewrite Z.sub_0_l, Z.abs_opp.
        rewrite Z.abs_eq by exact Hpos. ring. }
      split; [exact E | apply Hfee, E].
    + exists st. split; [reflexivity |].
      match goal with |- ?A /\ _ => assert (E : A) end.
      { rewrite Z.sub_diag. simpl. ring. }
      split; [exact E | apply Hfee, E].
Qed.

Lemma trade_costs_exactly_the_fee_witness :
  exists st',
    step scenario_B {| st_cash := 1000; position := 0 |} (mkBar 1 110) = Ok st'
    /\ total (row_of st' (mkBar 1 110))
       == total (row_of {| st_cash := 1000; position := 0 |} (mkBar 1 110))
          - (1 # 100) * (inject_Z (Z.abs (position st' - 0)) * 110)
    /\ total (row_of st' (mkBar 1 110))
       <= total (row_of {| st_cash := 1000; position := 0 |} (mkBar 1 110)).
Proof.
  apply (trade_costs_exactly_the_fee scenario_B
           {| st_cash := 1000; position := 0 |} (mkBar 1 110)).
  - simpl. lra.
  - simpl. lra.
  - simpl. lra.
  - simpl. lia.
Defined.

(** *** One position at a time *)

Lemma step_single_position (bt : t) (st st' : State) (b : Bar) :
  step bt st b = Ok st' ->
  position st' = position st \/ position st = 0%Z \/ position st' = 0%Z.
Proof.
  unfold step.
  destruct ((signal b >? 0)%Z && (position st =? 0)%Z) eqn:Ebuy.
  - intros _. apply andb_prop in Ebuy as [_ E0]. apply Z.eqb_eq in E0. auto.
  - destruct ((signal b <? 0)%Z && (position st >? 0)%Z);
      intros H; injection H as <-; auto.
Qed.

Lemma loop_single_position (bt : t) (bars : list Bar) :
  forall st tr,
    loop bt st bars = Ok tr ->
    single_position (position st) (map (fun sr => position (fst sr)) tr).
Proof.
  induction bars as [| b rest IH]; intros st tr H.
  - injection H as <-. exact I.
  - cbn [loop] in H. apply bind_ok in H as (st' & Hst & H).
    apply bind_ok in H as (rows & Hrows & H). injection H as <-.
    cbn [map fst single_position]. split.
    + eapply step_single_position, Hst.
    + eapply IH, Hrows.
Qed.

Lemma single_position_nth (qs : list Z) :
  forall q, single_position q qs ->
  forall i x y,
    nth_error (q :: qs) i = Some x ->
    nth_error (q :: qs) (S i) = Some y ->
    y = x \/ x = 0%Z \/ y = 0%Z.
Proof.
  induction qs as [| q' rest IH]; intros q Hq i x y Hx Hy.
  - destruct i; discriminate.
  - destruct Hq as [H1 H2]. destruct i as [| i].
    + injection Hx as <-. injection Hy as <-. exact H1.
    + eapply (IH q' H2 i); eassumption.
Qed.

(** X4. The book holds one position at a time: the quantity starts at 0,
    and between two consecutive bars of a run it either stays the same,
    leaves 0 (an entry) or returns to 0 (an exit); it never passes from one
    non-zero value to another. *)
Theorem run_holds_one_position_at_a_time (bt : t) (bars : list Bar)
    (qs : list Z) :
  quantities bt bars = Ok qs ->
  hd 0%Z qs = 0%Z
  /\ forall i x y,
       nth_error qs i = Some x -> nth_error qs (S i) = Some y ->
       y = x \/ x = 0%Z \/ y = 0%Z.
Proof.
  unfold quantities. destruct bars as [| b0 rest]; cbn [run_trace bind].
  - intros H. injection H as <-. split; [reflexivity |].
    intros [| i] x y H; discriminate.
  - destruct (loop bt (init bt) rest) as [tr |] eqn:E; [| discriminate].
    cbn [bind map fst]. intros H. injection H as <-.
    split; [reflexivity |].
    apply single_position_nth. eapply (loop_single_position bt rest (init bt)), E.
Qed.

Lemma run_holds_one_position_at_a_time_witness :
  exists qs,
    quantities scenario_B scenario_bars = Ok qs
    /\ hd 0%Z qs = 0%Z
    /\ forall i x y,
         nth_error qs i = Some x -> nth_error qs (S i) = Some y ->
         y = x \/ x = 0%Z \/ y = 0%Z.
Proof.
  eexists. split; [vm_compute; reflexivity |].
  apply (run_holds_one_position_at_a_time scenario_B scenario_bars).
  vm_compute. reflexivity.
Defined.

End BacktesterMore.

(** ** Further properties of the metrics *)

Module EvaluationMore.
Import Evaluation EvaluationFacts.

(** *** Maximum drawdown of a series of positive values *)

Lemma nondecreasing_from_eq (m m' : Q) (xs : list Q) :
  m == m' -> nondecreasing_from m xs <-> nondecreasing_from m' xs.
Proof.
  intros E. destruct xs as [| x xs]; [reflexivity |].
  simpl. rewrite E. reflexivity.
Qed.

Lemma drawdown_entry (m x : Q) :
  0 < m -> 0 < x ->
  let m' := Qmax m x in
  0 < m'
  /\ drawdown_of (x, m') = Fin ((x - m') / m')
  /\ - (1) < (x - m') / m' <= 0
  /\ ((x - m') / m' == 0 <-> m <= x).
Proof.
  intros Hm Hx m'.
  assert (Hm' : 0 < m') by (eapply Qlt_le_trans; [exact Hm | apply Q.le_max_l]).
  assert (Hxm : x <= m') by apply Q.le_max_r.
  assert (Hnz : ~ m' == 0) by (intros E; lra).
  split; [exact Hm' |]. split.
  { unfold drawdown_of; simpl. rewrite (Qeq_bool_false_neq _ _ Hnz). reflexivity. }
  split; [split |].
  - apply Qlt_shift_div_l; [exact Hm' | lra].
  - apply Qle_shift_div_r; [exact Hm' | lra].
  - split; intros H.
    + assert (E : x - m' == 0).
      { rewrite <- (Qmult_div_r (x - m') m' Hnz), H. ring. }
      assert (Hle : m <= m') by apply Q.le_max_l. lra.
    + assert (E : m' == x) by (apply Q.max_r; exact H).
      rewrite E. field. intros E0. lra.
Qed.

Lemma drawdowns_from (xs : list Q) :
  forall m,
    0 < m -> Forall (fun x => 0 < x) xs ->
    exists ds,
      map drawdown_of (combine xs (cummax_from m xs)) = map Fin ds
      /\ Forall (fun d => - (1) < d <= 0) ds
      /\ (Forall (fun d => d == 0) ds <-> nondecreasing_from m xs).
Proof.
  induction xs as [| x xs IH]; intros m Hm Hall.
  - exists []. repeat split; constructor.
  - inversion Hall as [| ? ? Hx Hxs]; subst.
    destruct (drawdown_entry m x Hm Hx) as (Hm' & Ed & Hb & Hz).
    destruct (IH (Qmax m x) Hm' Hxs) as (ds & Eds & Hbs & Hzs).
    exists ((x - Qmax m x) / Qmax m x :: ds).
    cbn [cummax_from combine map]. rewrite Ed, Eds.
    split; [reflexivity |]. split; [constructor; assumption |].
    cbn [nondecreasing_from]. split.
    + intros H. inversion H as [| ? ? H0 Hr]; subst.
      apply Hz in H0. split; [exact H0 |].
      apply (nondecreasing_from_eq (Qmax m x) x); [now apply Q.max_r |].
      now apply Hzs.
    + intros [H0 Hr]. constructor; [now apply Hz |].
      apply Hzs. apply (nondecreasing_from_eq (Qmax m x) x); [now apply Q.max_r |].
      exact Hr.
Qed.

Lemma fold_Qmin_picks (P : Q -> Prop) :
  (forall a b, a == b -> P a -> P b) ->
  forall ds d, P d -> Forall P ds -> P (fold_left Qmin ds d).
Proof.
  intros HP ds. induction ds as [| y ds IH]; intros d Hd Hall; [exact Hd |].
  inversion Hall as [| ? ? Hy Hds]; subst. cbn [fold_left].
  apply IH; [| exact Hds].
  destruct (Q.min_dec d y) as [E | E]; eapply HP; try (symmetry; exact E); assumption.
Qed.

Lemma fold_Qmin_le (ds : list Q) :
  forall d, fold_left Qmin ds d <= d
            /\ Forall (fun y => fold_left Qmin ds d <= y) ds.
Proof.
  induction ds as [| y ds IH]; intros d.
  - split; [apply Qle_refl | constructor].
  - cbn [fold_left]. destruct (IH (Qmin d y)) as [H1 H2]. split.
    + eapply Qle_trans; [exact H1 | apply Q.le_min_l].
    + constructor; [eapply Qle_trans; [exact H1 | apply Q.le_min_r] | exact H2].
Qed.

(** The drawdown series of a non-empty series of positive values. *)
Lemma max_drawdown_positive_series (x : Q) (xs : list Q) :
  0 < x -> Forall (fun v => 0 < v) xs ->
  exists d ds,
    calculate_max_drawdown (x :: xs) = Fin (fold_left Qmin ds d)
    /\ d == 0
    /\ Forall (fun d => - (1) < d <= 0) ds
    /\ (Forall (fun d => d == 0) ds <-> nondecreasing_from x xs).
Proof.
  intros Hx Hxs.
  destruct (drawdowns_from xs x Hx Hxs) as (ds & Eds & Hbs & Hzs).
  exists ((x - x) / x), ds.
  assert (Hnz : ~ x == 0) by (intros E; rewrite E in Hx; discriminate Hx).
  split; [| split; [field; exact Hnz | split; assumption]].
  unfold calculate_max_drawdown. cbn [cummax combine map].
  change (map (fun vm => fdiv (fsub (Fin (fst vm)) (Fin (snd vm))) (Fin (snd vm))))
    with (map drawdown_of).
  rewrite Eds.
  replace (fdiv (fsub (Fin (fst (x, x))) (Fin (snd (x, x)))) (Fin (snd (x, x))))
    with (Fin ((x - x) / x))
    by (simpl; rewrite (Qeq_bool_false_neq _ _ Hnz); reflexivity).
  apply (series_min_Fin ((x - x) / x) ds).
Qed.

(** X6. For a non-empty series of positive values the maximum drawdown is
    a finite number in the interval (-1, 0]: never a gain, never a loss of
    100% or more. *)
Theorem max_drawdown_between_minus_one_and_zero (tv : list Q) :
  tv <> [] ->
  Forall (fun v => 0 < v) tv ->
  exists q, calculate_max_drawdown tv = Fin q /\ - (1) < q <= 0.
Proof.
  intros Hne Hall. destruct tv as [| x xs]; [contradiction |].
  inversion Hall as [| ? ? Hx Hxs]; subst.
  destruct (max_drawdown_positive_series x xs Hx Hxs) as (d & ds & E & Hd & Hbs & _).
  eexists. split; [exact E |].
  apply (fold_Qmin_picks (fun d => - (1) < d <= 0)).
  - intros a b Eab H. rewrite <- Eab. exact H.
  - rewrite Hd. split; [reflexivity | apply Qle_refl].
  - exact Hbs.
Qed.

Lemma max_drawdown_between_minus_one_and_zero_witness :
  exists q, calculate_max_drawdown [100; 120; 90; 130] = Fin q /\ - (1) < q <= 0.
Proof.
  apply (max_drawdown_between_minus_one_and_zero [100; 120; 90; 130]).
  - discriminate.
  - repeat constructor.
Defined.

(** X7. For a non-empty series of positive values the maximum drawdown is
    0 exactly when the series never declines. *)
Theorem max_drawdown_zero_iff_never_declines (tv : list Q) :
  tv <> [] ->
  Forall (fun v => 0 < v) tv ->
  exists q,
    calculate_max_drawdown tv = Fin q /\ (q == 0 <-> nondecreasing tv).
Proof.
  intros Hne Hall. destruct tv as [| x xs]; [contradiction |].
  inversion Hall as [| ? ? Hx Hxs]; subst.
  destruct (max_drawdown_positive_series x xs Hx Hxs)
    as (d & ds & E & Hd & Hbs & Hzs).
  eexists. split; [exact E |]. cbn [nondecreasing]. split.
  - intros Hq. apply Hzs.
    destruct (fold_Qmin_le ds d) as [_ Hle].
    apply Forall_forall. intros y Hy.
    pose proof (proj1 (Forall_forall _ _) Hle y Hy) as H1.
    pose proof (proj1 (Forall_forall _ _) Hbs y Hy) as [_ H2].
    cbv beta in H1. lra.
  - intros Hnd. apply (fold_Qmin_picks (fun d => d == 0)).
    + intros a b Eab H. rewrite <- Eab. exact H.
    + exact Hd.
    + now apply Hzs.
Qed.

Lemma max_drawdown_zero_iff_never_declines_witness :
  exists q,
    calculate_max_drawdown [100; 100; 130] = Fin q
    /\ (q == 0 <-> nondecreasing [100; 100; 130]).
Proof.
  apply (max_drawdown_zero_iff_never_declines [100; 100; 130]).
  - discriminate.
  - repeat constructor.
Defined.

(** *** Trade statistics *)

Lemma total_trades_stats (trs : list float) :
  total_trades (spec_stats trs) = length trs.
Proof. destruct trs; reflexivity. Qed.

Lemma win_xor_loss (r : float) :
  r <> NaN -> fltb (Fin 0) r = negb (fleb r (Fin 0)).
Proof.
  destruct r as [| | | q]; intros H; try reflexivity. contradiction.
Qed.

Lemma win_loss_disjoint (r : float) :
  fltb (Fin 0) r = true -> fleb r (Fin 0) = false.
Proof.
  destruct r as [| | | q]; simpl; try discriminate; try reflexivity.
  unfold Qlt_bool. now rewrite negb_true_iff.
Qed.

Lemma counts_le (trs : list float) :
  (count_if (fun r => fltb (Fin 0) r) trs
   + count_if (fun r => fleb r (Fin 0)) trs <= length trs)%nat.
Proof.
  unfold count_if. induction trs as [| r trs IH]; [simpl; lia |].
  cbn [filter length].
  destruct (fltb (Fin 0) r) eqn:E.
  - rewrite (win_loss_disjoint r E). cbn [length]. lia.
  - destruct (fleb r (Fin 0)); cbn [length]; lia.
Qed.

Lemma counts_eq (trs : list float) :
  Forall (fun r => r <> NaN) trs ->
  (count_if (fun r => fltb (Fin 0) r) trs
   + count_if (fun r => fleb r (Fin 0)) trs = length trs)%nat.
Proof.
  unfold count_if. induction 1 as [| r trs Hr _ IH]; [reflexivity |].
  cbn [filter length]. rewrite (win_xor_loss r Hr).
  destruct (fleb r (Fin 0)); cbn [negb length]; lia.
Qed.

Lemma fold_fadd_finite (xs : list float) :
  Forall (fun x => exists q, x = Fin q) xs ->
  forall a, exists q, fold_left fadd xs (Fin a) = Fin q.
Proof.
  induction 1 as [| x xs [q ->] _ IH]; intros a; [now exists a |].
  cbn [fold_left fadd]. apply IH.
Qed.

Lemma series_sum_finite (s : list float) :
  Forall finite_or_nan s -> exists q, series_sum s = Fin q.
Proof.
  intros H. unfold series_sum. apply fold_fadd_finite.
  unfold dropna. induction H as [| x xs [H1 H2] _ IH]; [constructor |].
  cbn [filter]. destruct x as [| | | q]; cbn [is_nan negb]; try contradiction.
  - exact IH.
  - constructor; [now exists q | exact IH].
Qed.

Lemma Forall_firstn_keeps {A : Type} (P : A -> Prop) (s : list A) :
  Forall P s -> forall n, Forall P (firstn n s).
Proof.
  induction 1 as [| x xs Hx _ IH]; intros [| n]; cbn [firstn];
    try constructor; auto.
Qed.

Lemma Forall_skipn_keeps {A : Type} (P : A -> Prop) (s : list A) :
  Forall P s -> forall n, Forall P (skipn n s).
Proof.
  induction 1 as [| x xs Hx Hxs IH]; intros [| n]; cbn [skipn];
    try constructor; auto.
Qed.

Lemma iloc_slice_Forall {A : Type} (P : A -> Prop) (s : list A) (a b : nat) :
  Forall P s -> Forall P (iloc_slice s a b).
Proof.
  intros H. unfold iloc_slice.
  apply Forall_skipn_keeps, Forall_firstn_keeps, H.
Qed.

Lemma scan_trades_not_nan (returns : list float) (signals : list Z) :
  Forall finite_or_nan returns ->
  forall i position,
    Forall (fun r => r <> NaN) (scan_trades returns i position signals).
Proof.
  intros Hr. induction signals as [| s rest IH]; intros i position;
    [constructor |].
  cbn [scan_trades]. destruct (s >? 0)%Z; [apply IH |].
  destruct ((s <? 0)%Z && (0 <? position)%nat); [| apply IH].
  constructor; [| apply IH].
  destruct (series_sum_finite (iloc_slice returns position (i + 1))) as [q ->].
  - now apply iloc_slice_Forall.
  - discriminate.
Qed.

Lemma spec_stats_shape (trs : list float) :
  winning_trades (spec_stats trs) = count_if (fun r => fltb (Fin 0) r) trs
  /\ losing_trades (spec_stats trs) = count_if (fun r => fleb r (Fin 0)) trs
  /\ total_trades (spec_stats trs) = length trs
  /\ 0 <= win_rate (spec_stats trs) <= 100.
Proof.
  destruct trs as [| r trs].
  - simpl. repeat split; try reflexivity; discriminate.
  - unfold spec_stats.
    cbn [winning_trades losing_trades total_trades win_rate].
    repeat split.
    + apply Qmult_le_0_compat; [| discriminate].
      apply Qle_shift_div_l.
      * change 0 with (inject_Z 0). rewrite <- Zlt_Qlt. simpl. lia.
      * rewrite Qmult_0_l. change 0 with (inject_Z 0). rewrite <- Zle_Qle. lia.
    + pose proof (counts_le (r :: trs)) as Hle.
      set (l := r :: trs) in *.
      set (w := count_if (fun r0 => fltb (Fin 0) r0) l) in *.
      assert (H2 : 0 < inject_Z (Z.of_nat (length l))).
      { change 0 with (inject_Z 0). rewrite <- Zlt_Qlt. unfold l. simpl. lia. }
      assert (H4 : inject_Z (Z.of_nat w) / inject_Z (Z.of_nat (length l)) <= 1).
      { apply Qle_shift_div_r; [exact H2 |]. rewrite Qmult_1_l.
        rewrite <- Zle_Qle. lia. }
      set (ratio := inject_Z (Z.of_nat w) / inject_Z (Z.of_nat (length l))) in *.
      lra.
Qed.

(** X8. The statistics of [calculate_win_rate] are consistent: wins plus
    losses never exceed the number of trades, the win rate lies in
    [[0, 100]], and when the returns hold no infinity every trade is either
    a win or a loss, so wins plus losses equal the number of trades. *)
Theorem win_rate_statistics_consistent
    (signals : list Z) (returns : list float) :
  let stats := calculate_win_rate signals returns in
  (winning_trades stats + losing_trades stats <= total_trades stats)%nat
  /\ 0 <= win_rate stats <= 100
  /\ (Forall finite_or_nan returns ->
      (winning_trades stats + losing_trades stats = total_trades stats)%nat).
Proof.
  cbv zeta. rewrite calculate_win_rate_stats.
  destruct (spec_stats_shape (scan_trades returns 0 0 signals))
    as (Ew & El & Et & Hr).
  rewrite Ew, El, Et. split; [apply counts_le |]. split; [exact Hr |].
  intros Hfin. apply counts_eq. now apply scan_trades_not_nan.
Qed.

Lemma win_rate_statistics_consistent_witness :
  let stats :=
    calculate_win_rate [0; 1; -1; 1; 0; -1]%Z
      [NaN; Fin (1 # 10); Fin (- (2 # 10)); Fin (1 # 10); Fin (1 # 10);
       Fin (1 # 10)] in
  (winning_trades stats + losing_trades stats <= total_trades stats)%nat
  /\ 0 <= win_rate stats <= 100
  /\ (winning_trades stats + losing_trades stats = total_trades stats)%nat.
Proof.
  destruct (win_rate_statistics_consistent [0; 1; -1; 1; 0; -1]%Z
              [NaN; Fin (1 # 10); Fin (- (2 # 10)); Fin (1 # 10); Fin (1 # 10);
               Fin (1 # 10)]) as (H1 & H2 & H3).
  split; [exact H1 |]. split; [exact H2 |].
  apply H3. repeat constructor; discriminate.
Defined.

Lemma scan_windows_le_sells (signals : list Z) :
  forall i position,
    (length (scan_windows i position signals)
     <= count_if (fun s => (s <? 0)%Z) signals)%nat.
Proof.
  unfold count_if. induction signals as [| s rest IH]; intros i position;
    [simpl; lia |].
  cbn [scan_windows filter].
  destruct (s >? 0)%Z eqn:Eb.
  - specialize (IH (S i) i). destruct (s <? 0)%Z; cbn [length]; lia.
  - destruct (s <? 0)%Z; cbn [andb].
    + destruct (0 <? position)%nat; cbn [length].
      * specialize (IH (S i) 0%nat). lia.
      * specialize (IH (S i) position). lia.
    + apply IH.
Qed.

Lemma scan_windows_le_buys (signals : list Z) :
  forall i position,
    (length (scan_windows i position signals)
     <= count_if (fun s => (s >? 0)%Z) signals
        + (if (0 <? position)%nat then 1 else 0))%nat.
Proof.
  unfold count_if. induction signals as [| s rest IH]; intros i position;
    [simpl; lia |].
  cbn [scan_windows filter].
  destruct (s >? 0)%Z eqn:Eb.
  - specialize (IH (S i) i). cbn [length].
    destruct (0 <? i)%nat; destruct (0 <? position)%nat; lia.
  - destruct ((s <? 0)%Z && (0 <? position)%nat) eqn:Es.
    + apply andb_prop in Es as [_ Ep]. rewrite Ep. cbn [length].
      specialize (IH (S i) 0%nat). simpl in IH. lia.
    + apply IH.
Qed.

(** X9. Every counted trade has its own Buy and its own Sell:
    [total_trades] is at most the number of positive signals and at most
    the number of negative signals. *)
Theorem trades_bounded_by_signals (signals : list Z) (returns : list float) :
  (total_trades (calculate_win_rate signals returns)
   <= count_if (fun s => (s >? 0)%Z) signals)%nat
  /\ (total_trades (calculate_win_rate signals returns)
      <= count_if (fun s => (s <? 0)%Z) signals)%nat.
Proof.
  rewrite calculate_win_rate_stats, total_trades_stats, scan_trades_windows,
    length_map.
  split.
  - pose proof (scan_windows_le_buys signals 0 0) as H. simpl in H. lia.
  - apply scan_windows_le_sells.
Qed.

Lemma scan_windows_ignores_open_tail (tail : list Z) :
  Forall (fun s => (0 <= s)%Z) tail ->
  forall signals i position,
    scan_windows i position (signals ++ tail) = scan_windows i position signals.
Proof.
  intros Ht. induction signals as [| s rest IH]; intros i position.
  - cbn [app]. revert i position.
    induction Ht as [| s tail Hs _ IHt]; intros i position; [reflexivity |].
    cbn [scan_windows]. destruct (s >? 0)%Z; [apply IHt |].
    replace (s <? 0)%Z with false by (symmetry; apply Z.ltb_ge; lia).
    apply IHt.
  - cbn [app scan_windows]. destruct (s >? 0)%Z; [apply IH |].
    destruct ((s <? 0)%Z && (0 <? position)%nat); [| apply IH].
    f_equal. apply IH.
Qed.

(** X10. A trade still open when the series ends is not counted, and
    nothing after the last Sell matters: extending the signals by bars
    without a Sell signal leaves every statistic unchanged. *)
Theorem open_trade_is_not_counted
    (signals tail : list Z) (returns : list float) :
  Forall (fun s => (0 <= s)%Z) tail ->
  calculate_win_rate (signals ++ tail) returns
  = calculate_win_rate signals returns.
Proof.
  intros Ht. rewrite !calculate_win_rate_stats, !scan_trades_windows.
  now rewrite (scan_windows_ignores_open_tail tail Ht).
Qed.

Lemma open_trade_is_not_counted_witness :
  calculate_win_rate ([0; 1; -1]%Z ++ [1; 0; 1]%Z)
    [NaN; Fin (1 # 10); Fin (1 # 10); Fin 1; Fin 1; Fin 1]
  = calculate_win_rate [0; 1; -1]%Z
      [NaN; Fin (1 # 10); Fin (1 # 10); Fin 1; Fin 1; Fin 1].
Proof.
  apply (open_trade_is_not_counted [0; 1; -1]%Z [1; 0; 1]%Z).
  repeat constructor; lia.
Defined.

End EvaluationMore.

(** ** The result accessors and the metrics dictionary *)

Module EngineFacts.
Import Backtester BacktesterFacts BacktesterMore Evaluation EvaluationFacts.
Import EvaluationMore.

Lemma run_length (bt : Backtester.t) (bars : list Bar) (ledger : list Row) :
  Backtester.run bt bars = Ok ledger -> length ledger = length bars.
Proof.
  unfold Backtester.run. intros H.
  apply bind_ok in H as (tr & Htr & H). injection H as <-.
  rewrite length_map. symmetry.
  eapply Forall2_length, run_trace_rows_ok, Htr.
Qed.

Lemma pct_change_length (s : list Q) : length (pct_change s) = length s.
Proof.
  destruct s as [| x xs]; [reflexivity |]. simpl. f_equal.
  revert x. induction xs as [| y ys IH]; intros x; [reflexivity |].
  simpl. f_equal. apply IH.
Qed.

(** X5. The accessors follow the last completed run. On a new object
    [get_portfolio_value], [get_returns] and [summary] raise the
    [ValueError]; after a run that returns a ledger they give its total
    column and the returns of that column, one value per bar, the first
    of them NaN;
    a run that raises leaves the object as it was, so the accessors keep
    answering from the run before it. *)
Theorem accessors_follow_last_completed_run
    (sqrt : Q -> Q) (pow : Q -> Q -> float)
    (e : Engine.t) (bars : list Bar) :
  (forall capital rate,
      Engine.get_portfolio_value (Engine.new capital rate)
        = Raised ValueError_run_first
      /\ Engine.get_returns (Engine.new capital rate)
         = Raised ValueError_run_first
      /\ Engine.summary sqrt pow (Engine.new capital rate)
         = Raised ValueError_run_first)
  /\ (forall ledger e',
        Engine.run e bars = (Done ledger, e') ->
        Engine.config e' = Engine.config e
        /\ Engine.get_portfolio_value e' = Done (map total ledger)
        /\ length (map total ledger) = length bars
        /\ exists rs,
             Engine.get_returns e' = Done rs
             /\ length rs = length bars
             /\ (forall r, hd_error rs = Some r -> r = NaN))
  /\ (forall x e', Engine.run e bars = (Raised x, e') -> e' = e).
Proof.
  split; [intros; repeat split; reflexivity |]. split.
  - intros ledger e' H. unfold Engine.run in H.
    destruct (Backtester.run (Engine.config e) bars) as [l |] eqn:E;
      [| discriminate].
    injection H as <- <-.
    pose proof (run_length _ _ _ E) as Hlen.
    unfold Engine.get_returns, Engine.get_portfolio_value. cbn.
    repeat split; [now rewrite length_map |].
    eexists. split; [reflexivity |]. split.
    + now rewrite pct_change_length, length_map.
    + destruct l as [| r0 l]; cbn; intros r H; [discriminate | now injection H].
  - intros x e' H. unfold Engine.run in H.
    destruct (Backtester.run (Engine.config e) bars); [discriminate |].
    now injection H.
Qed.

Lemma accessors_follow_last_completed_run_witness :
  exists ledger e',
    Engine.run (Engine.new 1000 0) scenario_bars = (Done ledger, e')
    /\ Engine.get_portfolio_value e' = Done (map total ledger)
    /\ length (map total ledger) = length scenario_bars.
Proof.
  do 2 eexists. split; [vm_compute; reflexivity |].
  destruct (proj1 (proj2 (accessors_follow_last_completed_run
                            sqrt_approx (fun x _ => Fin x)
                            (Engine.new 1000 0) scenario_bars))
              _ _ eq_refl) as (_ & H1 & H2 & _).
  split; [exact H1 | exact H2].
Defined.

(** *** The summary of a run that never buys *)

Lemma run_without_buy (bt : Backtester.t) (b0 : Bar) (rest : list Bar) :
  Forall (fun b => (signal b <= 0)%Z) rest ->
  Backtester.run bt (b0 :: rest)
  = Ok (seed_row bt :: map (fun b => row_of (init bt) b) rest).
Proof.
  intros H. unfold Backtester.run. cbn [run_trace].
  rewrite (loop_without_buy bt rest H). cbn [bind map snd].
  now rewrite map_map.
Qed.

Lemma last_const (c : Q) (xs : list Q) :
  Forall (fun v => v == c) xs -> forall x, x == c -> last (x :: xs) 0 == c.
Proof.
  induction 1 as [| y ys Hy _ IH]; intros x Hx; [exact Hx |].
  change (last (x :: y :: ys) 0) with (last (y :: ys) 0). now apply IH.
Qed.

Lemma nondecreasing_from_const (c : Q) (xs : list Q) :
  Forall (fun v => v == c) xs -> forall x, x == c -> nondecreasing_from x xs.
Proof.
  induction 1 as [| y ys Hy _ IH]; intros x Hx; [exact I |].
  cbn [nondecreasing_from]. split; [rewrite Hx, Hy; apply Qle_refl | now apply IH].
Qed.

Lemma max_drawdown_const (c x : Q) (xs : list Q) :
  0 < c -> x == c -> Forall (fun v => v == c) xs ->
  feq (calculate_max_drawdown (x :: xs)) (Fin 0).
Proof.
  intros Hc Hx Hxs.
  destruct (max_drawdown_positive_series x xs) as (d & ds & E & Hd & _ & Hz).
  - rewrite Hx. exact Hc.
  - eapply Forall_impl; [| exact Hxs]. intros v Hv. cbv beta in Hv.
    rewrite Hv. exact Hc.
  - rewrite E. cbn [feq].
    apply (fold_Qmin_picks (fun d => d == 0)).
    + intros a b Eab H. rewrite <- Eab. exact H.
    + exact Hd.
    + apply Hz. now apply (nondecreasing_from_const c).
Qed.

Lemma pct_change_from_flat (c : Q) (xs : list Q) :
  ~ c == 0 -> Forall (fun v => v == c) xs ->
  forall prev, prev == c ->
  exists rs,
    pct_change_from prev xs = map Fin rs
    /\ length rs = length xs
    /\ Forall (fun r => r == 0) rs.
Proof.
  intros Hc. induction 1 as [| x xs Hx _ IH]; intros prev Hp.
  - exists []. repeat split; constructor.
  - destruct (IH x Hx) as (rs & E & Hl & Hz).
    exists (x / prev + - (1) :: rs). cbn [pct_change_from].
    assert (Hnz : ~ prev == 0) by (rewrite Hp; exact Hc).
    cbn [fdiv fsub fadd fopp]. rewrite (Qeq_bool_false_neq _ _ Hnz), E.
    split; [reflexivity |]. split; [simpl; now rewrite Hl |].
    constructor; [| exact Hz].
    rewrite Hx, Hp. field. exact Hc.
Qed.

Lemma std_zero_on_equal_values
    (sqrt : Q -> Q) (s : list float) (x : Q) (ys : list Q) :
  (forall q, q == 0 -> sqrt q == 0) ->
  dropna s = map Fin ys ->
  Forall (fun y => y == x) ys -> (2 <= length ys)%nat ->
  exists v, series_std sqrt s = Fin v /\ v == 0.
Proof.
  intros Hsqrt Hd Hall Hlen. unfold series_std.
  rewrite series_var_dropna, Hd.
  destruct (series_var_const x ys Hall Hlen) as (v & -> & Hv).
  cbn [fsqrt].
  replace (Qlt_bool v 0) with false.
  - eexists. split; [reflexivity | now apply Hsqrt].
  - symmetry. destruct (Qlt_bool v 0) eqn:E; [| reflexivity].
    apply Qlt_bool_iff in E. rewrite Hv in E. discriminate E.
Qed.

(** X11. A run whose signals never say Buy is summarised as a flat book:
    on at least three bars and with a positive capital, [summary] returns
    a dictionary whose final value is the capital and whose total return,
    maximum drawdown, CAGR and volatility are all 0.  (The library's
    square root is assumed to send 0 to 0 and its power to send base 1 to
    1.  The Sharpe entry is not part of the statement: [summary] computes
    it with the rate 0.02, and the deviation of equal non-zero excess
    returns depends on the rounding of their mean.) *)
Theorem summary_of_a_run_without_buy
    (sqrt : Q -> Q) (pow : Q -> Q -> float)
    (capital rate : Q) (bars : list Bar) :
  (forall q, q == 0 -> sqrt q == 0) ->
  (forall x y, x == 1 -> feq (pow x y) (Fin 1)) ->
  0 < capital ->
  (3 <= length bars)%nat ->
  Forall (fun b => (signal b <= 0)%Z) (tl bars) ->
  exists ledger e' m,
    Engine.run (Engine.new capital rate) bars = (Done ledger, e')
    /\ Engine.summary sqrt pow e' = Done m
    /\ Metrics.initial_capital m = capital
    /\ Metrics.final_value m == capital
    /\ feq (Metrics.total_return m) (Fin 0)
    /\ feq (Metrics.max_drawdown m) (Fin 0)
    /\ feq (Metrics.cagr m) (Fin 0)
    /\ feq (Metrics.volatility m) (Fin 0).
Proof.
  intros Hsqrt Hpow Hc Hlen Hs.
  destruct bars as [| b0 rest]; [simpl in Hlen; lia |].
  cbn [tl] in Hs. cbn [length] in Hlen.
  assert (Hnz : ~ capital == 0) by (intros E; rewrite E in Hc; discriminate Hc).
  set (bt := Backtester.mk capital rate).
  set (tvs := map (fun b => total (row_of (init bt) b)) rest).
  assert (Htv : Forall (fun v => v == capital) tvs).
  { unfold tvs. apply Forall_map, Forall_forall. intros b _. simpl. ring. }
  assert (Hlt : length tvs = length rest) by (unfold tvs; now rewrite length_map).
  unfold Engine.run, Engine.new. cbn [Engine.config].
  fold bt. rewrite (run_without_buy bt b0 rest Hs).
  exists (seed_row bt :: map (fun b => row_of (init bt) b) rest).
  exists {| Engine.config := bt;
            Engine.results :=
              Some (seed_row bt :: map (fun b => row_of (init bt) b) rest) |}.
  unfold Engine.summary, Engine.get_returns, Engine.get_portfolio_value.
  cbn [Engine.results Engine.config map total seed_row
         Backtester.initial_capital bt].
  rewrite map_map. fold tvs.
  destruct (pct_change_from_flat capital tvs Hnz Htv capital (Qeq_refl _))
    as (rs & Ers & Hlrs & Hzrs).
  cbn [pct_change]. rewrite Ers.
  assert (Hlast : last (capital :: tvs) 0 == capital)
    by (apply (last_const capital); [exact Htv | reflexivity]).
  unfold Metrics.calculate_metrics, Metrics.calculate_cagr.
  assert (Hyears : Qle_bool (inject_Z (Z.of_nat (length (capital :: tvs))) / 252) 0
                   = false).
  { destruct (Qle_bool _ 0) eqn:E; [| reflexivity].
    apply Qle_bool_iff in E.
    assert (H1 : 0 < inject_Z (Z.of_nat (length (capital :: tvs)))).
    { change 0 with (inject_Z 0). rewrite <- Zlt_Qlt. simpl. lia. }
    assert (H2 : 0 < inject_Z (Z.of_nat (length (capital :: tvs))) / 252)
      by (apply Qlt_shift_div_l; [reflexivity | lra]).
    lra. }
  assert (Hinit : Qle_bool capital 0 = false).
  { destruct (Qle_bool capital 0) eqn:E; [| reflexivity].
    apply Qle_bool_iff in E. lra. }
  rewrite Hyears, Hinit. cbn [orb].
  eexists. split; [reflexivity |]. split; [reflexivity |].
  cbn [Metrics.initial_capital Metrics.final_value Metrics.total_return
         Metrics.max_drawdown Metrics.cagr Metrics.volatility].
  split; [reflexivity |]. split; [exact Hlast |].
  assert (Hdrop : dropna (NaN :: map Fin rs) = map Fin rs)
    by (change (dropna (NaN :: map Fin rs)) with (dropna (map Fin rs));
        apply dropna_Fin).
  assert (Hrs2 : (2 <= length rs)%nat) by lia.
  split; [| split; [| split]].
  - cbn [fdiv]. rewrite (Qeq_bool_false_neq _ _ Hnz). cbn [fmul feq].
    rewrite Hlast. field. exact Hnz.
  - pose proof (max_drawdown_const capital capital tvs Hc (Qeq_refl _) Htv) as H.
    destruct (calculate_max_drawdown (capital :: tvs)); try contradiction.
    cbn [fmul feq] in *. rewrite H. ring.
  - assert (E1 : last (capital :: tvs) 0 / capital == 1)
      by (rewrite Hlast; field; exact Hnz).
    pose proof (Hpow _ (1 / (inject_Z (Z.of_nat (length (capital :: tvs))) / 252))
                  E1) as H.
    destruct (pow _ _); try contradiction.
    cbn [fsub fopp fadd fmul feq] in *. rewrite H. ring.
  - destruct (std_zero_on_equal_values sqrt (NaN :: map Fin rs) 0 rs
                Hsqrt Hdrop Hzrs Hrs2) as (v & -> & Hv).
    cbn [fsqrt]. change (Qlt_bool 252 0) with false.
    cbn [fmul feq]. rewrite Hv. ring.
Qed.

Lemma summary_of_a_run_without_buy_witness :
  exists ledger e' m,
    Engine.run (Engine.new 1000 (1 # 100))
      [mkBar 0 100; mkBar 0 110; mkBar (-1) 90; mkBar 0 120] = (Done ledger, e')
    /\ Engine.summary sqrt_approx (fun x _ => Fin x) e' = Done m
    /\ Metrics.initial_capital m = 1000
    /\ Metrics.final_value m == 1000
    /\ feq (Metrics.total_return m) (Fin 0)
    /\ feq (Metrics.max_drawdown m) (Fin 0)
    /\ feq (Metrics.cagr m) (Fin 0)
    /\ feq (Metrics.volatility m) (Fin 0).
Proof.
  apply (summary_of_a_run_without_buy sqrt_approx (fun x _ => Fin x)
           1000 (1 # 100)
           [mkBar 0 100; mkBar 0 110; mkBar (-1) 90; mkBar 0 120]).
  - intros [n d] E. unfold Qeq in E; simpl in E.
    assert (n = 0%Z) by lia. subst n. reflexivity.
  - intros x y E. exact E.
  - reflexivity.
  - simpl. lia.
  - repeat constructor; simpl; lia.
Defined.

(** *** The value of the book stays positive *)

Lemma step_keeps_solvent (bt : Backtester.t) (st st' : State) (b : Bar) :
  0 <= commission bt <= 1 -> 0 < close b ->
  solvent bt st -> step bt st b = Ok st' -> solvent bt st'.
Proof.
  intros Hk Hp (Hc & Hpos & Hflat & Hheld). unfold step, shares_to_buy.
  rewrite Qeq_bool_false_neq by lra.
  destruct ((signal b >? 0)%Z && (position st =? 0)%Z) eqn:Ebuy; cbn [bind].
  - intros H; injection H as <-.
    apply andb_prop in Ebuy as [_ E0]. apply Z.eqb_eq in E0.
    specialize (Hflat E0).
    destruct (buy_cost_bounded (st_cash st) (commission bt) (close b))
      as [Hs Hcash]; auto.
    set (x := (st_cash st * (1 - commission bt)) / close b) in *.
    unfold solvent; cbn [st_cash position].
    split; [exact Hcash |]. split; [exact Hs |]. split.
    + intros E. rewrite E. change (inject_Z 0) with 0. lra.
    + intros Hheld'. apply Qnot_le_lt. intros H1.
      assert (Hx : x <= 0).
      { unfold x. apply Qle_shift_div_r; [exact Hp |]. nra. }
      assert (Hx0 : 0 <= x).
      { unfold x. apply Qle_shift_div_l; [exact Hp |]. nra. }
      destruct (int_of_nonneg x Hx0) as [_ Hle].
      assert (Hs0 : inject_Z (int_of x) <= inject_Z 0)
        by (change (inject_Z 0) with 0; lra).
      rewrite <- Zle_Qle in Hs0. lia.
  - destruct ((signal b <? 0)%Z && (position st >? 0)%Z) eqn:Esell;
      intros H; injection H as <-.
    + apply andb_prop in Esell as [_ Eh].
      assert (Hh : (0 < position st)%Z) by lia.
      specialize (Hheld Hh).
      unfold solvent; cbn [st_cash position].
      assert (Hq : 1 <= inject_Z (position st)).
      { change 1 with (inject_Z 1). rewrite <- Zle_Qle. lia. }
      assert (Hrev : 0 < inject_Z (position st) * close b) by nra.
      assert (Hnet : 0 < inject_Z (position st) * close b * (1 - commission bt))
        by (apply Qmult_lt_0_compat; lra).
      repeat split; try lra; try lia.
    + unfold solvent. auto.
Qed.

Lemma solvent_row_positive (bt : Backtester.t) (st : State) (b : Bar) :
  0 < close b -> solvent bt st -> 0 < total (row_of st b).
Proof.
  intros Hp (Hc & Hpos & Hflat & _). cbn [row_of total].
  destruct (Z.eq_dec (position st) 0) as [E | E].
  - rewrite E. specialize (Hflat E). change (inject_Z 0) with 0. lra.
  - assert (Hq : 1 <= inject_Z (position st)).
    { change 1 with (inject_Z 1). rewrite <- Zle_Qle. lia. }
    nra.
Qed.

Lemma loop_value_positive (bt : Backtester.t) (bars : list Bar) :
  0 <= commission bt <= 1 ->
  Forall (fun b => 0 < close b) bars ->
  forall st, solvent bt st ->
  exists tr,
    loop bt st bars = Ok tr
    /\ Forall (fun sr => 0 < total (snd sr)) tr.
Proof.
  intros Hk Hbars. induction Hbars as [| b rest Hb _ IH]; intros st Hst.
  - exists []. split; [reflexivity | constructor].
  - destruct (step_total bt st b) as [st' Est]; [lra |].
    pose proof (step_keeps_solvent bt st st' b Hk Hb Hst Est) as Hst'.
    destruct (IH st' Hst') as (tr & Etr & Hall).
    exists ((st', row_of st' b) :: tr). cbn [loop]. rewrite Est. cbn [bind].
    rewrite Etr. cbn [bind]. split; [reflexivity |].
    constructor; [now apply (solvent_row_positive bt) | exact Hall].
Qed.

(** X12. With a positive initial capital, a commission rate in [[0,1]] and
    positive closes, the total value of every ledger entry is positive;
    hence the maximum drawdown of the run's total column is a finite
    number in (-1, 0]. *)
Theorem book_value_stays_positive (bt : Backtester.t) (bars : list Bar) :
  0 < Backtester.initial_capital bt ->
  0 <= commission bt <= 1 ->
  Forall (fun b => 0 < close b) bars ->
  exists ledger,
    Backtester.run bt bars = Ok ledger
    /\ Forall (fun row => 0 < total row) ledger
    /\ (bars <> [] ->
        exists q,
          calculate_max_drawdown (map total ledger) = Fin q
          /\ - (1) < q <= 0).
Proof.
  intros Hic Hk Hbars. unfold Backtester.run.
  destruct bars as [| b0 rest]; cbn [run_trace bind].
  - exists []. repeat split; [constructor | intros H; contradiction].
  - inversion Hbars as [| ? ? _ Hrest]; subst.
    destruct (loop_value_positive bt rest Hk Hrest (init bt)) as (tr & Etr & Hall).
    { unfold solvent, init; cbn [st_cash position].
      repeat split; try lra; try lia. }
    rewrite Etr. cbn [bind map snd].
    eexists. split; [reflexivity |].
    assert (Hpos : Forall (fun row => 0 < total row) (map snd tr)).
    { apply Forall_map. exact Hall. }
    split; [constructor; [exact Hic | exact Hpos] |].
    intros _. cbn [map total seed_row].
    destruct (max_drawdown_positive_series (Backtester.initial_capital bt)
                (map total (map snd tr)) Hic)
      as (d & ds & E & Hd & Hbs & _).
    { apply Forall_map. exact Hpos. }
    eexists. split; [exact E |].
    apply (fold_Qmin_picks (fun d => - (1) < d <= 0)).
    + intros x y Exy H. rewrite <- Exy. exact H.
    + rewrite Hd. split; [reflexivity | apply Qle_refl].
    + exact Hbs.
Qed.

Lemma book_value_stays_positive_witness :
  exists ledger,
    Backtester.run scenario_B scenario_bars = Ok ledger
    /\ Forall (fun row => 0 < total row) ledger
    /\ (scenario_bars <> [] ->
        exists q,
          calculate_max_drawdown (map total ledger) = Fin q
          /\ - (1) < q <= 0).
Proof.
  apply (book_value_stays_positive scenario_B scenario_bars).
  - reflexivity.
  - simpl. lra.
  - repeat constructor.
Defined.

(** *** The summary of an empty run *)

(** X19. [run] accepts an empty frame, but the summary of that run cannot
    be computed: [summary] then raises [IndexError] (the last total of an
    empty column). On any non-empty total column [calculate_metrics]
    raises nothing. *)
Theorem summary_needs_at_least_one_bar
    (sqrt : Q -> Q) (pow : Q -> Q -> float) (capital rate : Q) :
  (exists e',
      Engine.run (Engine.new capital rate) [] = (Done [], e')
      /\ Engine.get_portfolio_value e' = Done []
      /\ Engine.summary sqrt pow e' = Raised IndexError)
  /\ (forall portfolio_value returns,
        portfolio_value <> [] ->
        exists m,
          Metrics.calculate_metrics sqrt pow portfolio_value returns capital
          = Done m
          /\ Metrics.final_value m = last portfolio_value 0).
Proof.
  split.
  - eexists. repeat split.
  - intros pv returns Hne. destruct pv as [| v pv]; [contradiction |].
    unfold Metrics.calculate_metrics, Metrics.calculate_cagr.
    destruct (Qle_bool v 0
              || Qle_bool (inject_Z (Z.of_nat (length (v :: pv))) / 252) 0);
      eexists; split; reflexivity.
Qed.

Lemma summary_needs_at_least_one_bar_witness :
  exists m,
    Metrics.calculate_metrics sqrt_approx (fun x _ => Fin x)
      [1000; 1010] (pct_change [1000; 1010]) 1000 = Done m
    /\ Metrics.final_value m = last [1000; 1010] 0.
Proof.
  apply (proj2 (summary_needs_at_least_one_bar sqrt_approx (fun x _ => Fin x)
                  1000 0)).
  discriminate.
Defined.

End EngineFacts.

(** ** The optimizer's best result *)

Module OptimizerFacts.
Import Optimizer.

Lemma fltb_trans_le (x y z : float) :
  fleb x y = true -> fltb y z = true -> fleb x z = true.
Proof.
  destruct x as [| | | a], y as [| | | b], z as [| | | c]; simpl;
    try discriminate; try reflexivity.
  intros H1 H2. apply Qle_bool_iff in H1. apply Qlt_bool_iff in H2.
  apply Qle_bool_iff. lra.
Qed.

Lemma fleb_trans (x y z : float) :
  fleb x y = true -> fleb y z = true -> fleb x z = true.
Proof.
  destruct x as [| | | a], y as [| | | b], z as [| | | c]; simpl;
    try discriminate; try reflexivity.
  intros H1 H2. apply Qle_bool_iff in H1. apply Qle_bool_iff in H2.
  apply Qle_bool_iff. lra.
Qed.

Lemma fltb_false_ge (x y : float) :
  x <> NaN -> y <> NaN -> fltb x y = false -> fleb y x = true.
Proof.
  destruct x as [| | | a], y as [| | | b]; simpl; intros Hx Hy H;
    try contradiction; try discriminate; try reflexivity.
  unfold Qlt_bool in H. apply negb_false_iff in H. exact H.
Qed.

Lemma fltb_le (x y : float) : fltb x y = true -> fleb x y = true.
Proof.
  destruct x as [| | | a], y as [| | | b]; simpl;
    try discriminate; try reflexivity.
  intros H. apply Qlt_bool_iff in H. apply Qle_bool_iff. lra.
Qed.

Lemma fleb_refl (x : float) : x <> NaN -> fleb x x = true.
Proof.
  destruct x as [| | | a]; simpl; intros H; try contradiction; try reflexivity.
  apply Qle_bool_iff. apply Qle_refl.
Qed.

Lemma py_max_in {A : Type} (key : A -> float) (rest : list A) :
  forall first, In (py_max key first rest) (first :: rest).
Proof.
  unfold py_max. induction rest as [| y rest IH]; intros first; [now left |].
  cbn [fold_left].
  destruct (fltb (key first) (key y)).
  - right. apply IH.
  - destruct (IH first) as [H | H]; [left; exact H | right; right; exact H].
Qed.

Lemma py_max_dominates {A : Type} (key : A -> float) (rest : list A) :
  Forall (fun x => key x <> NaN) rest ->
  forall first, key first <> NaN ->
  fleb (key first) (key (py_max key first rest)) = true
  /\ Forall (fun x => fleb (key x) (key (py_max key first rest)) = true) rest.
Proof.
  unfold py_max. induction 1 as [| y rest Hy _ IH]; intros first Hf.
  - split; [now apply fleb_refl | constructor].
  - cbn [fold_left]. destruct (fltb (key first) (key y)) eqn:E.
    + destruct (IH y Hy) as [H1 H2]. split.
      * eapply fleb_trans; [apply fltb_le, E | exact H1].
      * constructor; assumption.
    + destruct (IH first Hf) as [H1 H2]. split; [exact H1 |].
      constructor; [| exact H2].
      eapply fleb_trans; [apply (fltb_false_ge _ _ Hf Hy E) | exact H1].
Qed.

Lemma py_max_stuck_on_nan {A : Type} (key : A -> float) (rest : list A) :
  forall first, key first = NaN -> py_max key first rest = first.
Proof.
  unfold py_max. induction rest as [| y rest IH]; intros first Hf; [reflexivity |].
  cbn [fold_left]. rewrite Hf. cbn [fltb]. apply IH, Hf.
Qed.

(** X13. [get_best_result] raises the [ValueError] on an empty history and
    otherwise returns an entry of the history. When no Sharpe ratio in the
    history is NaN, no entry has a larger Sharpe ratio than the one
    returned; but when the Sharpe ratio of the first entry is NaN, that
    first entry is returned whatever the others are. *)
Theorem best_result_of_history {A : Type} (sharpe : A -> float)
    (history : list A) :
  (history = [] -> get_best_result sharpe history = Raised ValueError_no_optimization)
  /\ (history <> [] ->
      exists best,
        get_best_result sharpe history = Done best
        /\ In best history
        /\ (Forall (fun x => sharpe x <> NaN) history ->
            Forall (fun x => fleb (sharpe x) (sharpe best) = true) history)
        /\ (forall first, hd_error history = Some first ->
            sharpe first = NaN -> best = first)).
Proof.
  split; [intros ->; reflexivity |].
  intros Hne. destruct history as [| first rest]; [contradiction |].
  cbn [get_best_result]. eexists. split; [reflexivity |].
  split; [apply py_max_in |]. split.
  - intros Hall. inversion Hall as [| ? ? Hf Hrest]; subst.
    destruct (py_max_dominates sharpe rest Hrest first Hf) as [H1 H2].
    constructor; assumption.
  - intros f Hf Hnan. injection Hf as <-. now apply py_max_stuck_on_nan.
Qed.

Lemma best_result_of_history_witness :
  exists best,
    get_best_result snd [(1%nat, Fin (1 # 2)); (2%nat, Fin 2); (3%nat, Fin 1)]
      = Done best
    /\ In best [(1%nat, Fin (1 # 2)); (2%nat, Fin 2); (3%nat, Fin 1)]
    /\ Forall (fun x => fleb (snd x) (snd best) = true)
         [(1%nat, Fin (1 # 2)); (2%nat, Fin 2); (3%nat, Fin 1)].
Proof.
  destruct (proj2 (best_result_of_history (A := nat * float) snd
                     [(1%nat, Fin (1 # 2)); (2%nat, Fin 2); (3%nat, Fin 1)]))
    as (best & E & Hin & Hmax & _).
  - discriminate.
  - exists best. split; [exact E |]. split; [exact Hin |].
    apply Hmax. repeat constructor; discriminate.
Defined.

End OptimizerFacts.

(** ** The indicators *)

Module IndicatorFacts.
Import Indicators EvaluationFacts EvaluationMore.

Lemma nth_map_seq {A : Type} (f : nat -> A) (n i : nat) (d : A) :
  (i < n)%nat -> nth i (map f (seq 0 n)) d = f i.
Proof.
  intros Hi. rewrite (nth_indep _ d (f 0%nat)) by (now rewrite length_map, length_seq).
  rewrite map_nth, seq_nth by exact Hi. reflexivity.
Qed.

Lemma iloc_slice_map {A B : Type} (f : A -> B) (s : list A) (a b : nat) :
  iloc_slice (map f s) a b = map f (iloc_slice s a b).
Proof. unfold iloc_slice. now rewrite firstn_map, skipn_map. Qed.

Lemma iloc_slice_length {A : Type} (s : list A) (a b : nat) :
  (b <= length s)%nat -> length (iloc_slice s a b) = (b - a)%nat.
Proof.
  intros Hb. unfold iloc_slice. rewrite length_skipn, length_firstn. lia.
Qed.

(** The rolling mean of a series of finite values, window by window. *)
Lemma rolling_mean_Fin (window : nat) (qs : list Q) :
  (1 <= window)%nat ->
  rolling_mean window (map Fin qs)
  = map (fun i =>
           if (i + 1 <? window)%nat then NaN
           else Fin (fold_left Qplus (iloc_slice qs (i + 1 - window) (i + 1)) 0
                     / inject_Z (Z.of_nat window)))
        (seq 0 (length qs)).
Proof.
  intros Hw. unfold rolling_mean. rewrite length_map.
  apply map_ext_in. intros i Hi. apply in_seq in Hi. cbv zeta.
  rewrite iloc_slice_map, dropna_Fin, length_map, iloc_slice_length by lia.
  replace (window =? 0)%nat with false by (symmetry; apply Nat.eqb_neq; lia).
  cbn [orb].
  destruct (i + 1 <? window)%nat eqn:E.
  - apply Nat.ltb_lt in E.
    replace (i + 1 - (i + 1 - window) <? window)%nat with true
      by (symmetry; apply Nat.ltb_lt; lia).
    reflexivity.
  - apply Nat.ltb_ge in E.
    replace (i + 1 - (i + 1 - window) <? window)%nat with false
      by (symmetry; apply Nat.ltb_ge; lia).
    rewrite fold_fadd_Fin. cbn [fdiv].
    rewrite Qeq_bool_false_neq by (apply inject_nat_nonzero; lia).
    reflexivity.
Qed.

Lemma fold_Qplus_bounds (lo hi : Q) (xs : list Q) :
  Forall (fun x => lo <= x <= hi) xs ->
  forall a,
    a + inject_Z (Z.of_nat (length xs)) * lo <= fold_left Qplus xs a
    /\ fold_left Qplus xs a <= a + inject_Z (Z.of_nat (length xs)) * hi.
Proof.
  induction 1 as [| x xs [Hl Hh] _ IH]; intros a.
  - cbn [fold_left length]. change (inject_Z (Z.of_nat 0)) with 0. split; lra.
  - cbn [fold_left length]. destruct (IH (a + x)) as [H1 H2].
    rewrite Nat2Z.inj_succ. unfold Z.succ. rewrite inject_Z_plus.
    set (n := inject_Z (Z.of_nat (length xs))) in *.
    change (inject_Z 1) with 1. split; nra.
Qed.

Lemma window_mean_bounds (lo hi : Q) (xs : list Q) :
  Forall (fun x => lo <= x <= hi) xs -> (1 <= length xs)%nat ->
  lo <= fold_left Qplus xs 0 / inject_Z (Z.of_nat (length xs)) <= hi.
Proof.
  intros Hall Hlen.
  destruct (fold_Qplus_bounds lo hi xs Hall 0) as [H1 H2].
  assert (Hn : 0 < inject_Z (Z.of_nat (length xs))).
  { change 0 with (inject_Z 0). rewrite <- Zlt_Qlt. lia. }
  split.
  - apply Qle_shift_div_l; [exact Hn | lra].
  - apply Qle_shift_div_r; [exact Hn | lra].
Qed.

(** X14. The simple moving average over a window of at least one bar, of
    finite prices that all lie between [lo] and [hi]: it has one value per
    price, NaN for the first [window - 1] bars, and from then on a finite
    value between [lo] and [hi]. *)
Theorem sma_warms_up_then_stays_in_range
    (qs : list Q) (window : nat) (lo hi : Q) :
  (1 <= window)%nat ->
  Forall (fun q => lo <= q <= hi) qs ->
  length (calculate_sma (map Fin qs) window) = length qs
  /\ forall i,
      (i < length qs)%nat ->
      ((i + 1 < window)%nat ->
       nth i (calculate_sma (map Fin qs) window) NaN = NaN)
      /\ ((window <= i + 1)%nat ->
          exists m,
            nth i (calculate_sma (map Fin qs) window) NaN = Fin m
            /\ lo <= m <= hi).
Proof.
  intros Hw Hall. unfold calculate_sma. rewrite (rolling_mean_Fin window qs Hw).
  split; [now rewrite length_map, length_seq |].
  intros i Hi. rewrite nth_map_seq by exact Hi. split.
  - intros H. now replace (i + 1 <? window)%nat with true
      by (symmetry; apply Nat.ltb_lt; lia).
  - intros H. replace (i + 1 <? window)%nat with false
      by (symmetry; apply Nat.ltb_ge; lia).
    eexists. split; [reflexivity |].
    assert (Hlen : length (iloc_slice qs (i + 1 - window) (i + 1)) = window)
      by (rewrite iloc_slice_length; lia).
    rewrite <- Hlen at 2 4.
    apply window_mean_bounds; [| lia].
    now apply iloc_slice_Forall.
Qed.

Lemma sma_warms_up_then_stays_in_range_witness :
  length (calculate_sma (map Fin [1; 2; 3; 4; 5]) 3) = 5%nat
  /\ forall i,
      (i < 5)%nat ->
      ((i + 1 < 3)%nat ->
       nth i (calculate_sma (map Fin [1; 2; 3; 4; 5]) 3) NaN = NaN)
      /\ ((3 <= i + 1)%nat ->
          exists m,
            nth i (calculate_sma (map Fin [1; 2; 3; 4; 5]) 3) NaN = Fin m
            /\ 1 <= m <= 5).
Proof.
  apply (sma_warms_up_then_stays_in_range [1; 2; 3; 4; 5] 3 1 5).
  - lia.
  - repeat constructor; discriminate.
Defined.

(** *** Relative strength index *)

Lemma diff_from_Fin (bs : list Q) :
  forall prev,
    diff_from (Fin prev) (map Fin bs)
    = map Fin (map (fun xy => snd xy + - fst xy) (combine (prev :: bs) bs)).
Proof.
  induction bs as [| b bs IH]; intros prev; [reflexivity |].
  cbn [map diff_from]. rewrite IH. reflexivity.
Qed.

Lemma steps_of_nondecreasing (bs : list Q) :
  forall prev,
    nondecreasing_from prev bs ->
    Forall (fun d => 0 <= d)
           (map (fun xy => snd xy + - fst xy) (combine (prev :: bs) bs)).
Proof.
  induction bs as [| b bs IH]; intros prev H; [constructor |].
  destruct H as [H1 H2]. cbn [combine map]. constructor.
  - cbn [fst snd]. lra.
  - apply IH, H2.
Qed.

(** The gains and losses that [calculate_rsi] averages: finite, not
    negative, one per price; no loss at all when the prices never decline. *)
Lemma rsi_inputs (qs : list Q) :
  exists gs ls,
    gains (diff (map Fin qs)) = map Fin gs
    /\ losses (diff (map Fin qs)) = map Fin ls
    /\ length gs = length qs
    /\ length ls = length qs
    /\ Forall (fun g => 0 <= g) gs
    /\ Forall (fun l => 0 <= l) ls
    /\ (nondecreasing qs -> Forall (fun l => l == 0) ls).
Proof.
  destruct qs as [| q0 qs].
  - exists [], []. repeat split; constructor.
  - set (ds := map (fun xy => snd xy + - fst xy) (combine (q0 :: qs) qs)).
    exists (0 :: map (fun d => if Qlt_bool 0 d then d else 0) ds).
    exists (- 0 :: map (fun d => - (if Qlt_bool d 0 then d else 0)) ds).
    assert (Hlen : length ds = length qs).
    { unfold ds. rewrite length_map, length_combine. cbn [length]. lia. }
    unfold gains, losses. cbn [map diff]. rewrite diff_from_Fin. fold ds.
    rewrite !map_map. cbn [fltb fopp].
    split; [f_equal; apply map_ext; intros d; cbn [fltb];
            destruct (Qlt_bool 0 d); reflexivity |].
    split; [f_equal; apply map_ext; intros d; cbn [fltb];
            destruct (Qlt_bool d 0); reflexivity |].
    split; [cbn [length]; now rewrite length_map, Hlen |].
    split; [cbn [length]; now rewrite length_map, Hlen |].
    split; [| split].
    + constructor; [apply Qle_refl |]. apply Forall_map, Forall_forall.
      intros d _. destruct (Qlt_bool 0 d) eqn:E; [| apply Qle_refl].
      apply Qlt_bool_iff in E. lra.
    + constructor; [discriminate |]. apply Forall_map, Forall_forall.
      intros d _. destruct (Qlt_bool d 0) eqn:E; [| discriminate].
      apply Qlt_bool_iff in E. lra.
    + intros Hnd. cbn [nondecreasing] in Hnd.
      constructor; [reflexivity |]. apply Forall_map.
      eapply Forall_impl; [| apply (steps_of_nondecreasing qs q0 Hnd)].
      intros d Hd. cbv beta in Hd.
      replace (Qlt_bool d 0) with false; [reflexivity |].
      symmetry. destruct (Qlt_bool d 0) eqn:E; [| reflexivity].
      apply Qlt_bool_iff in E. lra.
Qed.

Lemma window_mean_nonneg (xs : list Q) (n : nat) :
  Forall (fun x => 0 <= x) xs -> (1 <= n)%nat ->
  0 <= fold_left Qplus xs 0 / inject_Z (Z.of_nat n).
Proof.
  intros Hall Hn.
  assert (Hs : 0 <= fold_left Qplus xs 0).
  { assert (G : forall a, 0 <= a -> 0 <= fold_left Qplus xs a).
    { induction Hall as [| x xs Hx _ IH]; intros a Ha; [exact Ha |].
      cbn [fold_left]. apply IH. lra. }
    apply G, Qle_refl. }
  apply Qle_shift_div_l; [| lra].
  change 0 with (inject_Z 0). rewrite <- Zlt_Qlt. lia.
Qed.

Lemma window_mean_zero (xs : list Q) (n : nat) :
  Forall (fun x => x == 0) xs -> (1 <= n)%nat ->
  fold_left Qplus xs 0 / inject_Z (Z.of_nat n) == 0.
Proof.
  intros Hall Hn. rewrite (fold_Qplus_const 0 xs Hall).
  field. apply inject_nat_nonzero. lia.
Qed.

(** One RSI value from an average gain and an average loss. *)
Lemma rsi_point (g l : Q) :
  0 <= g -> 0 <= l ->
  (rsi_of_rs (fdiv (Fin g) (Fin l)) = NaN
   \/ exists q, rsi_of_rs (fdiv (Fin g) (Fin l)) = Fin q /\ 0 <= q <= 100)
  /\ (l == 0 ->
      rsi_of_rs (fdiv (Fin g) (Fin l)) = NaN
      \/ exists q, rsi_of_rs (fdiv (Fin g) (Fin l)) = Fin q /\ q == 100).
Proof.
  intros Hg Hl. unfold rsi_of_rs. cbn [fdiv].
  destruct (Qeq_bool l 0) eqn:El.
  - unfold signed_inf. destruct (Qeq_bool g 0) eqn:Eg.
    + split; [left; reflexivity | intros _; left; reflexivity].
    + assert (Hpos : Qlt_bool 0 g = true).
      { apply Qlt_bool_iff. apply Qeq_bool_neq in Eg. lra. }
      rewrite Hpos. cbn.
      split; [right | intros _; right]; eexists; (split; [reflexivity |]).
      * split; discriminate.
      * reflexivity.
  - apply Qeq_bool_neq in El. assert (Hl' : 0 < l) by lra.
    assert (Hr : 0 <= g / l) by (apply Qle_shift_div_l; [exact Hl' | lra]).
    cbn [fadd].
    assert (Hnz : ~ 1 + g / l == 0) by lra.
    rewrite (Qeq_bool_false_neq _ _ Hnz). cbn [fsub fopp fadd].
    split; [right | intros E; contradiction].
    eexists. split; [reflexivity |].
    assert (H1 : 0 < 1 + g / l) by lra.
    assert (H2 : 0 <= 100 / (1 + g / l))
      by (apply Qle_shift_div_l; [exact H1 | lra]).
    assert (H3 : 100 / (1 + g / l) <= 100)
      by (apply Qle_shift_div_r; [exact H1 | lra]).
    split; lra.
Qed.

(** [calculate_rsi] bar by bar: NaN while the window fills, then the value
    of an average gain and an average loss that are not negative. *)
Lemma rsi_shape (qs : list Q) (period : nat) :
  (1 <= period)%nat ->
  exists G L : nat -> Q,
    calculate_rsi (map Fin qs) period
    = map (fun i =>
             if (i + 1 <? period)%nat then NaN
             else rsi_of_rs (fdiv (Fin (G i)) (Fin (L i))))
          (seq 0 (length qs))
    /\ (forall i, (i < length qs)%nat -> 0 <= G i /\ 0 <= L i)
    /\ (nondecreasing qs -> forall i, (i < length qs)%nat -> L i == 0).
Proof.
  intros Hp.
  destruct (rsi_inputs qs) as (gs & ls & Eg & El & Hlg & Hll & Hg & Hl & Hnd).
  exists (fun i => fold_left Qplus (iloc_slice gs (i + 1 - period) (i + 1)) 0
                   / inject_Z (Z.of_nat period)).
  exists (fun i => fold_left Qplus (iloc_slice ls (i + 1 - period) (i + 1)) 0
                   / inject_Z (Z.of_nat period)).
  split; [| split].
  - unfold calculate_rsi. cbv zeta. rewrite Eg, El.
    rewrite !(rolling_mean_Fin period _ Hp), Hlg, Hll.
    rewrite combine_map_same, !map_map.
    apply map_ext. intros i. cbn [fst snd].
    destruct (i + 1 <? period)%nat; reflexivity.
  - intros i Hi. split; apply window_mean_nonneg; try lia;
      now apply iloc_slice_Forall.
  - intros H i Hi. apply window_mean_zero; [| lia].
    apply iloc_slice_Forall. now apply Hnd.
Qed.

Lemma rsi_length (qs : list Q) (period : nat) :
  (1 <= period)%nat ->
  length (calculate_rsi (map Fin qs) period) = length qs.
Proof.
  intros Hp. destruct (rsi_shape qs period Hp) as (G & L & E & _).
  rewrite E. now rewrite length_map, length_seq.
Qed.

(** X15. The RSI of a series of finite prices, over a period of at least
    one bar, has one value per price; it is NaN for the first
    [period - 1] bars, and every value that is not NaN lies in
    [[0, 100]]. *)
Theorem rsi_lies_between_0_and_100 (qs : list Q) (period : nat) :
  (1 <= period)%nat ->
  length (calculate_rsi (map Fin qs) period) = length qs
  /\ (forall i, (i + 1 < period)%nat -> (i < length qs)%nat ->
      nth i (calculate_rsi (map Fin qs) period) NaN = NaN)
  /\ Forall (fun r => r = NaN \/ exists q, r = Fin q /\ 0 <= q <= 100)
            (calculate_rsi (map Fin qs) period).
Proof.
  intros Hp. destruct (rsi_shape qs period Hp) as (G & L & E & Hpos & _).
  rewrite E. split; [now rewrite length_map, length_seq |]. split.
  - intros i Hi Hlt. rewrite nth_map_seq by exact Hlt.
    now replace (i + 1 <? period)%nat with true
      by (symmetry; apply Nat.ltb_lt; lia).
  - apply Forall_map, Forall_forall. intros i Hi. apply in_seq in Hi.
    destruct (i + 1 <? period)%nat; [left; reflexivity |].
    destruct (Hpos i ltac:(lia)) as [Hg Hl].
    exact (proj1 (rsi_point (G i) (L i) Hg Hl)).
Qed.

Lemma rsi_lies_between_0_and_100_witness :
  length (calculate_rsi (map Fin [10; 11; 12; 11; 13; 13; 14]) 3) = 7%nat
  /\ (forall i, (i + 1 < 3)%nat -> (i < 7)%nat ->
      nth i (calculate_rsi (map Fin [10; 11; 12; 11; 13; 13; 14]) 3) NaN = NaN)
  /\ Forall (fun r => r = NaN \/ exists q, r = Fin q /\ 0 <= q <= 100)
            (calculate_rsi (map Fin [10; 11; 12; 11; 13; 13; 14]) 3).
Proof.
  apply (rsi_lies_between_0_and_100 [10; 11; 12; 11; 13; 13; 14] 3). lia.
Defined.

(** *** Exponential moving average and average true range *)

Lemma smoothing_factor (span : nat) :
  (1 <= span)%nat ->
  0 < 2 / inject_Z (Z.of_nat span + 1) <= 1.
Proof.
  intros Hs.
  assert (H : 2 <= inject_Z (Z.of_nat span + 1)).
  { change 2 with (inject_Z 2). rewrite <- Zle_Qle. lia. }
  split.
  - apply Qlt_shift_div_l; lra.
  - apply Qle_shift_div_r; lra.
Qed.

(** The recurrence keeps the values inside any set closed under the
    weighted mean it takes. *)
Lemma ewm_from_keeps (P : Q -> Prop) (alpha : Q) (xs : list Q) :
  (forall a b, P a -> P b -> P ((1 - alpha) * a + alpha * b)) ->
  Forall P xs ->
  forall y, P y ->
  exists ys,
    ewm_from alpha (Fin y) (map Fin xs) = map Fin ys
    /\ length ys = length xs
    /\ Forall P ys.
Proof.
  intros Hmix. induction 1 as [| x xs Hx _ IH]; intros y Hy.
  - exists []. repeat split; constructor.
  - destruct (IH ((1 - alpha) * y + alpha * x)) as (ys & E & Hl & Hall);
      [now apply Hmix |].
    exists ((1 - alpha) * y + alpha * x :: ys).
    cbn [map ewm_from fmul fadd]. rewrite E.
    split; [reflexivity |]. split; [simpl; now rewrite Hl |].
    constructor; [now apply Hmix | exact Hall].
Qed.

Lemma ewm_mean_keeps (P : Q -> Prop) (span : nat) (xs : list Q) :
  (forall alpha a b,
      0 < alpha <= 1 -> P a -> P b -> P ((1 - alpha) * a + alpha * b)) ->
  (1 <= span)%nat ->
  Forall P xs ->
  exists ys,
    ewm_mean span (map Fin xs) = map Fin ys
    /\ length ys = length xs
    /\ Forall P ys.
Proof.
  intros Hmix Hs Hall. destruct Hall as [| x xs Hx Hxs].
  - exists []. repeat split; constructor.
  - destruct (ewm_from_keeps P (2 / inject_Z (Z.of_nat span + 1)) xs) with (y := x)
      as (ys & E & Hl & Hys); auto.
    { intros a b. apply Hmix. now apply smoothing_factor. }
    exists (x :: ys). cbn [map ewm_mean]. rewrite E.
    split; [reflexivity |]. split; [simpl; now rewrite Hl |].
    constructor; assumption.
Qed.

(** X21. The exponential moving average with a span of at least one bar,
    on finite prices lying between [lo] and [hi], is a series of finite
    values, one per price, that all lie between [lo] and [hi]; its first
    value is the first price. *)
Theorem ema_stays_in_range (qs : list Q) (span : nat) (lo hi : Q) :
  (1 <= span)%nat ->
  Forall (fun q => lo <= q <= hi) qs ->
  exists ys,
    calculate_ema (map Fin qs) span = map Fin ys
    /\ length ys = length qs
    /\ Forall (fun y => lo <= y <= hi) ys
    /\ hd_error ys = hd_error qs.
Proof.
  intros Hs Hall.
  destruct (ewm_mean_keeps (fun q => lo <= q <= hi) span qs) as (ys & E & Hl & Hys);
    auto.
  { intros alpha a b Ha [Ha1 Ha2] [Hb1 Hb2]. split; nra. }
  exists ys. unfold calculate_ema. repeat split; auto.
  destruct qs as [| q qs]; destruct ys as [| y ys]; try discriminate;
    [reflexivity |].
  cbn [map ewm_mean] in E. now injection E as ->.
Qed.

Lemma ema_stays_in_range_witness :
  exists ys,
    calculate_ema (map Fin [1; 2; 3; 4; 5]) 3 = map Fin ys
    /\ length ys = 5%nat
    /\ Forall (fun y => 1 <= y <= 5) ys
    /\ hd_error ys = Some 1.
Proof.
  apply (ema_stays_in_range [1; 2; 3; 4; 5] 3 1 5).
  - lia.
  - repeat constructor; discriminate.
Defined.

Lemma row_max_nonneg (a : Q) (u v : float) :
  0 <= a ->
  (u = NaN \/ exists q, u = Fin q /\ 0 <= q) ->
  (v = NaN \/ exists q, v = Fin q /\ 0 <= q) ->
  exists t, row_max [Fin a; u; v] = Fin t /\ 0 <= t.
Proof.
  intros Ha [-> | (q & -> & Hq)] [-> | (r & -> & Hr)]; unfold row_max; simpl;
    repeat match goal with
           | |- context [if ?c then _ else _] => destruct c
           end;
    eexists; (split; [reflexivity | assumption]).
Qed.

Lemma fabs_of_difference (x : Q) (prev : float) :
  (prev = NaN \/ exists c, prev = Fin c) ->
  fabs (fsub (Fin x) prev) = NaN
  \/ exists q, fabs (fsub (Fin x) prev) = Fin q /\ 0 <= q.
Proof.
  intros [-> | (c & ->)]; [left; reflexivity |].
  right. eexists. split; [reflexivity | apply Qabs_nonneg].
Qed.

(** The true range of rows whose low does not exceed their high. *)
Lemma true_range_nonneg (hs : list Q) :
  forall ls cs prev,
    (prev = NaN \/ exists c, prev = Fin c) ->
    Forall2 Qle ls hs ->
    length cs = length hs ->
    exists ts,
      map true_range
          (combine (map Fin hs)
                   (combine (map Fin ls) (shift_from prev (map Fin cs))))
      = map Fin ts
      /\ length ts = length hs
      /\ Forall (fun t => 0 <= t) ts.
Proof.
  induction hs as [| h hs IH]; intros ls cs prev Hprev Hlh Hlen.
  - exists []. repeat split; constructor.
  - inversion Hlh as [| l ? ls' ? Hl Hrest]; subst.
    destruct cs as [| c cs]; [discriminate |].
    destruct (IH ls' cs (Fin c)) as (ts & E & Hlt & Hts);
      [right; eauto | exact Hrest | simpl in Hlen; lia |].
    destruct (row_max_nonneg (h + - l) (fabs (fsub (Fin h) prev))
                (fabs (fsub (Fin l) prev)))
      as (t & Et & Ht);
      [lra | now apply fabs_of_difference | now apply fabs_of_difference |].
    exists (t :: ts). cbn [map shift_from combine]. rewrite E.
    unfold true_range at 1. cbn [fst snd].
    change (fsub (Fin h) (Fin l)) with (Fin (h + - l)). rewrite Et.
    split; [reflexivity |]. split; [simpl; now rewrite Hlt |].
    constructor; assumption.
Qed.

(** The average true range of finite rows whose low does not exceed their
    high. *)
Lemma atr_nonneg (hs ls cs : list Q) (period : nat) :
  (1 <= period)%nat ->
  Forall2 Qle ls hs ->
  length cs = length hs ->
  exists atr,
    calculate_atr (map Fin hs) (map Fin ls) (map Fin cs) period = map Fin atr
    /\ length atr = length cs
    /\ Forall (fun a => 0 <= a) atr.
Proof.
  intros Hp Hlh Hlen. unfold calculate_atr, shift. cbv zeta.
  destruct (true_range_nonneg hs ls cs NaN) as (ts & E & Hlt & Hts); auto.
  rewrite E.
  destruct (ewm_mean_keeps (fun a => 0 <= a) period ts) as (atr & Ea & Hla & Ha);
    auto.
  { intros alpha a b Hal Ha Hb. nra. }
  exists atr. rewrite Ea. repeat split; [congruence | exact Ha].
Qed.

End IndicatorFacts.

(** ** The strategies *)

Module StrategyFacts.
Import Indicators IndicatorFacts EvaluationFacts EvaluationMore.
Import Backtester BacktesterMore.

(** *** Mean reversion in a market that never falls *)

Lemma rsi_when_prices_never_fall (qs : list Q) (period : nat) :
  (1 <= period)%nat -> nondecreasing qs ->
  Forall (fun r => r = NaN \/ exists q, r = Fin q /\ q == 100)
         (calculate_rsi (map Fin qs) period).
Proof.
  intros Hp Hnd. destruct (rsi_shape qs period Hp) as (G & L & E & Hpos & Hz).
  rewrite E. apply Forall_map, Forall_forall. intros i Hi. apply in_seq in Hi.
  destruct (i + 1 <? period)%nat; [left; reflexivity |].
  destruct (Hpos i ltac:(lia)) as [Hg Hl].
  apply (proj2 (rsi_point (G i) (L i) Hg Hl)). apply (Hz Hnd). lia.
Qed.

Lemma Forall_combine_fst {A B : Type} (P : A -> Prop) (l : list A) :
  Forall P l -> forall l' : list B, Forall (fun ab => P (fst ab)) (combine l l').
Proof.
  induction 1 as [| x l Hx _ IH]; intros l'; [constructor |].
  destruct l' as [| y l']; [constructor |].
  cbn [combine]. constructor; [exact Hx | apply IH].
Qed.

(** X16. In a market whose closes never fall, the mean-reversion strategy
    (RSI period at least 1, oversold level at most 100) gives no Buy
    signal on any bar; run on its signals, the backtester therefore
    returns a flat ledger, one entry per close, with the initial capital
    as cash and as total throughout. *)
Theorem mean_reversion_never_buys_when_prices_never_fall
    (bt : Backtester.t) (closes : list Q) (period : nat)
    (oversold overbought : Q) :
  (1 <= period)%nat ->
  oversold <= 100 ->
  nondecreasing closes ->
  Forall (fun s => (s <= 0)%Z)
         (MeanReversion.signals (map Fin closes) period oversold overbought)
  /\ exists ledger,
      Backtester.run bt (MeanReversion.bars closes period oversold overbought)
        = Ok ledger
      /\ length ledger = length closes
      /\ Forall (fun row => cash row = Backtester.initial_capital bt
                            /\ holdings row == 0
                            /\ total row == Backtester.initial_capital bt)
                ledger.
Proof.
  intros Hp Hos Hnd.
  assert (Hsig : Forall (fun s => (s <= 0)%Z)
                   (MeanReversion.signals (map Fin closes) period oversold
                      overbought)).
  { unfold MeanReversion.signals. apply Forall_map.
    eapply Forall_impl; [| apply (rsi_when_prices_never_fall closes period Hp Hnd)].
    intros r [-> | (q & -> & Hq)].
    - cbn [fltb]. lia.
    - cbn [fltb]. destruct (Qlt_bool overbought q); [lia |].
      replace (Qlt_bool q oversold) with false; [lia |].
      symmetry. destruct (Qlt_bool q oversold) eqn:E; [| reflexivity].
      apply Qlt_bool_iff in E. lra. }
  split; [exact Hsig |].
  set (bars := MeanReversion.bars closes period oversold overbought).
  assert (Hbars : Forall (fun b => (signal b <= 0)%Z) bars).
  { unfold bars, MeanReversion.bars. apply Forall_map.
    apply (Forall_combine_fst (fun s => (s <= 0)%Z) _ Hsig closes). }
  assert (Hlen : length bars = length closes).
  { unfold bars, MeanReversion.bars, MeanReversion.signals.
    rewrite length_map, length_combine, length_map.
    rewrite (rsi_length closes period Hp). lia. }
  destruct (flat_ledger_without_buy bt bars) as (ledger & E & Hl & Hflat & _).
  { destruct bars as [| b0 rest]; [constructor |].
    cbn [tl]. now inversion Hbars. }
  exists ledger. split; [exact E |]. split; [congruence | exact Hflat].
Qed.

Lemma mean_reversion_never_buys_when_prices_never_fall_witness :
  Forall (fun s => (s <= 0)%Z)
         (MeanReversion.signals (map Fin [10; 11; 11; 13; 14]) 2 30 70)
  /\ exists ledger,
      Backtester.run scenario_B (MeanReversion.bars [10; 11; 11; 13; 14] 2 30 70)
        = Ok ledger
      /\ length ledger = 5%nat
      /\ Forall (fun row => cash row = 1000
                            /\ holdings row == 0 /\ total row == 1000) ledger.
Proof.
  apply (mean_reversion_never_buys_when_prices_never_fall scenario_B
           [10; 11; 11; 13; 14] 2 30 70).
  - lia.
  - discriminate.
  - simpl. repeat split; discriminate.
Defined.

(** *** Momentum *)

Lemma Qlt_bool_irrefl (x : Q) : Qlt_bool x x = false.
Proof.
  unfold Qlt_bool. apply negb_false_iff. apply Qle_bool_iff, Qle_refl.
Qed.

Lemma fltb_nan_r (x : float) : fltb x NaN = false.
Proof. destruct x; reflexivity. Qed.

(** The [position] column bar by bar. *)
Lemma positions_shape (qs : list Q) (short long : nat) :
  (1 <= short)%nat -> (1 <= long)%nat ->
  Momentum.positions (map Fin qs) short long
  = map (fun i =>
           if fltb
                (if (i + 1 <? long)%nat then NaN
                 else Fin (fold_left Qplus
                             (iloc_slice qs (i + 1 - long) (i + 1)) 0
                           / inject_Z (Z.of_nat long)))
                (if (i + 1 <? short)%nat then NaN
                 else Fin (fold_left Qplus
                             (iloc_slice qs (i + 1 - short) (i + 1)) 0
                           / inject_Z (Z.of_nat short)))
           then 1%Z else 0%Z)
        (seq 0 (length qs)).
Proof.
  intros Hs Hl. unfold Momentum.positions, calculate_sma.
  rewrite (rolling_mean_Fin short qs Hs), (rolling_mean_Fin long qs Hl).
  rewrite combine_map_same, map_map. reflexivity.
Qed.

Lemma positions_facts (qs : list Q) (short long : nat) :
  (1 <= short)%nat -> (1 <= long)%nat ->
  length (Momentum.positions (map Fin qs) short long) = length qs
  /\ Forall (fun p => p = 0%Z \/ p = 1%Z)
            (Momentum.positions (map Fin qs) short long)
  /\ forall i,
      i = 0%nat \/ (i + 1 < Nat.max short long)%nat ->
      nth i (Momentum.positions (map Fin qs) short long) 0%Z = 0%Z.
Proof.
  intros Hs Hl. rewrite (positions_shape qs short long Hs Hl).
  split; [now rewrite length_map, length_seq |]. split.
  - apply Forall_map, Forall_forall. intros i _.
    destruct (fltb _ _); [right | left]; reflexivity.
  - intros i Hi.
    destruct (Nat.lt_ge_cases i (length qs)) as [Hlt | Hge].
    2: { apply nth_overflow. now rewrite length_map, length_seq. }
    rewrite nth_map_seq by exact Hlt.
    destruct (i + 1 <? long)%nat eqn:El; [reflexivity |].
    destruct (i + 1 <? short)%nat eqn:Es; [reflexivity |].
    apply Nat.ltb_ge in El. apply Nat.ltb_ge in Es.
    destruct Hi as [-> | Hi]; [| lia].
    assert (short = 1%nat) by lia. assert (long = 1%nat) by lia. subst.
    cbn [fltb]. now rewrite Qlt_bool_irrefl.
Qed.

(** X17. The momentum strategy with windows of at least one bar writes a
    position of 0 or 1 on every bar, and 0 on the first bar and on every
    bar before the longer of the two averages is defined. *)
Theorem momentum_position_is_0_or_1_and_0_in_warm_up
    (qs : list Q) (short long : nat) :
  (1 <= short)%nat -> (1 <= long)%nat ->
  length (Momentum.positions (map Fin qs) short long) = length qs
  /\ Forall (fun p => p = 0%Z \/ p = 1%Z)
            (Momentum.positions (map Fin qs) short long)
  /\ forall i,
      i = 0%nat \/ (i + 1 < Nat.max short long)%nat ->
      nth i (Momentum.positions (map Fin qs) short long) 0%Z = 0%Z.
Proof. exact (positions_facts qs short long). Qed.

Lemma momentum_position_is_0_or_1_and_0_in_warm_up_witness :
  length (Momentum.positions (map Fin [10; 11; 12; 11; 13; 13; 14]) 2 4) = 7%nat
  /\ Forall (fun p => p = 0%Z \/ p = 1%Z)
            (Momentum.positions (map Fin [10; 11; 12; 11; 13; 13; 14]) 2 4)
  /\ forall i,
      i = 0%nat \/ (i + 1 < Nat.max 2 4)%nat ->
      nth i (Momentum.positions (map Fin [10; 11; 12; 11; 13; 13; 14]) 2 4) 0%Z
      = 0%Z.
Proof.
  apply (momentum_position_is_0_or_1_and_0_in_warm_up
           [10; 11; 12; 11; 13; 13; 14] 2 4); lia.
Defined.

Lemma telescope (bs : list Q) :
  forall prev a k,
    (k <= length bs)%nat ->
    fold_left Qplus
      (firstn k (map (fun xy => snd xy + - fst xy) (combine (prev :: bs) bs))) a
    == a + nth k (prev :: bs) 0 - prev.
Proof.
  induction bs as [| b bs IH]; intros prev a k Hk.
  - cbn [length] in Hk. assert (k = 0%nat) by lia. subst. simpl. ring.
  - destruct k as [| k]; [simpl; ring |].
    cbn [length] in Hk.
    change (combine (prev :: b :: bs) (b :: bs))
      with ((prev, b) :: combine (b :: bs) bs).
    cbn [map firstn fold_left fst snd].
    rewrite (IH b (a + (b + - prev)) k) by lia. cbn [nth]. ring.
Qed.

(** X18. The momentum signal is the change of the position: NaN on the
    first bar, and from then on the sum of the signals up to any bar
    equals the position on that bar, which is 0 or 1. So Buy and Sell
    signals alternate, the first of them a Buy. *)
Theorem momentum_signals_add_up_to_the_position
    (qs : list Q) (short long : nat) :
  (1 <= short)%nat -> (1 <= long)%nat ->
  length (Momentum.signals (map Fin qs) short long) = length qs
  /\ (forall x,
        hd_error (Momentum.signals (map Fin qs) short long) = Some x ->
        x = NaN)
  /\ forall k,
      (k < length qs)%nat ->
      feq (series_sum (firstn (S k) (Momentum.signals (map Fin qs) short long)))
          (Fin (inject_Z
                  (nth k (Momentum.positions (map Fin qs) short long) 0%Z)))
      /\ (nth k (Momentum.positions (map Fin qs) short long) 0%Z = 0%Z
          \/ nth k (Momentum.positions (map Fin qs) short long) 0%Z = 1%Z).
Proof.
  intros Hs Hl.
  destruct (positions_facts qs short long Hs Hl) as (Hlen & H01 & Hzero).
  unfold Momentum.signals.
  destruct (Momentum.positions (map Fin qs) short long) as [| p0 ps] eqn:E.
  - cbn [map diff length] in *. rewrite <- Hlen.
    repeat split; [intros x H; discriminate | lia | lia].
  - assert (Hp0 : p0 = 0%Z) by (apply (Hzero 0%nat); now left). subst p0.
    cbn [map diff].
    replace (map (fun z => Fin (inject_Z z)) ps)
      with (map Fin (map inject_Z ps)) by (now rewrite map_map).
    rewrite diff_from_Fin.
    set (ds := map (fun xy => snd xy + - fst xy)
                   (combine (inject_Z 0 :: map inject_Z ps) (map inject_Z ps))).
    assert (Hds : length ds = length ps).
    { unfold ds. rewrite length_map, length_combine. cbn [length].
      rewrite length_map. lia. }
    cbn [length] in Hlen.
    split; [cbn [length]; rewrite length_map; lia |].
    split; [intros x H; now injection H |].
    intros k Hk. split.
    + cbn [firstn]. unfold series_sum.
      change (dropna (NaN :: firstn k (map Fin ds)))
        with (dropna (firstn k (map Fin ds))).
      rewrite firstn_map, dropna_Fin, fold_fadd_Fin. cbn [feq].
      unfold ds. rewrite telescope by (rewrite length_map; lia).
      change (inject_Z 0 :: map inject_Z ps) with (map inject_Z (0%Z :: ps)).
      change 0 with (inject_Z 0) at 2. rewrite map_nth.
      change (inject_Z 0) with 0. ring.
    + pose proof (proj1 (Forall_forall _ _) H01 (nth k (0%Z :: ps) 0%Z)) as H.
      apply H. apply nth_In. cbn [length]. lia.
Qed.

Lemma momentum_signals_add_up_to_the_position_witness :
  length (Momentum.signals (map Fin [10; 11; 12; 11; 13; 13; 14]) 2 4) = 7%nat
  /\ (forall x,
        hd_error (Momentum.signals (map Fin [10; 11; 12; 11; 13; 13; 14]) 2 4)
        = Some x -> x = NaN)
  /\ forall k,
      (k < 7)%nat ->
      feq (series_sum
             (firstn (S k)
                (Momentum.signals (map Fin [10; 11; 12; 11; 13; 13; 14]) 2 4)))
          (Fin (inject_Z
                  (nth k (Momentum.positions
                            (map Fin [10; 11; 12; 11; 13; 13; 14]) 2 4) 0%Z)))
      /\ (nth k (Momentum.positions
                   (map Fin [10; 11; 12; 11; 13; 13; 14]) 2 4) 0%Z = 0%Z
          \/ nth k (Momentum.positions
                      (map Fin [10; 11; 12; 11; 13; 13; 14]) 2 4) 0%Z = 1%Z).
Proof.
  apply (momentum_signals_add_up_to_the_position
           [10; 11; 12; 11; 13; 13; 14] 2 4); lia.
Defined.

(** *** The stop-loss level of the mean-reversion strategy *)

(** X22. On finite rows whose low does not exceed their high, with an ATR
    period of at least one bar, the average true range is a finite,
    non-negative value on every bar; with a non-negative multiplier the
    stop-loss level of the mean-reversion strategy is therefore never
    above the close. *)
Theorem stop_loss_is_never_above_the_close
    (hs ls cs : list Q) (period : nat) (multiplier : Q) :
  (1 <= period)%nat ->
  Forall2 Qle ls hs ->
  length cs = length hs ->
  0 <= multiplier ->
  exists atr stops,
    calculate_atr (map Fin hs) (map Fin ls) (map Fin cs) period = map Fin atr
    /\ length atr = length cs
    /\ Forall (fun a => 0 <= a) atr
    /\ MeanReversion.stop_loss (map Fin hs) (map Fin ls) (map Fin cs)
         period multiplier = map Fin stops
    /\ Forall2 Qle stops cs.
Proof.
  intros Hp Hlh Hlen Hm.
  destruct (atr_nonneg hs ls cs period Hp Hlh Hlen) as (atr & E & Hl & Ha).
  exists atr, (map (fun ca => fst ca + - (snd ca * multiplier)) (combine cs atr)).
  split; [exact E |]. split; [exact Hl |]. split; [exact Ha |].
  unfold MeanReversion.stop_loss. rewrite E. split.
  - clear. revert atr. induction cs as [| c cs IH]; intros atr; [reflexivity |].
    destruct atr as [| a atr]; [reflexivity |].
    cbn [map combine fst snd fmul fsub fopp fadd]. now rewrite IH.
  - clear E Hlh Hlen. revert cs Hl.
    induction Ha as [| a atr Ha0 _ IH]; intros cs Hl;
      destruct cs as [| c cs]; try discriminate; [constructor |].
    cbn [combine map fst snd]. constructor; [nra |].
    apply IH. simpl in Hl. lia.
Qed.

Lemma stop_loss_is_never_above_the_close_witness :
  exists atr stops,
    calculate_atr (map Fin [12; 13; 15]) (map Fin [10; 11; 9])
      (map Fin [11; 12; 14]) 3 = map Fin atr
    /\ length atr = 3%nat
    /\ Forall (fun a => 0 <= a) atr
    /\ MeanReversion.stop_loss (map Fin [12; 13; 15]) (map Fin [10; 11; 9])
         (map Fin [11; 12; 14]) 3 2 = map Fin stops
    /\ Forall2 Qle stops [11; 12; 14].
Proof.
  apply (stop_loss_is_never_above_the_close [12; 13; 15] [10; 11; 9]
           [11; 12; 14] 3 2).
  - lia.
  - repeat constructor; discriminate.
  - reflexivity.
  - discriminate.
Defined.

End StrategyFacts.

(** ** Rounding to binary64 *)

Module Binary64Facts.

Lemma pow2_pos (e : Z) : 0 < pow2 e.
Proof. apply Qpower_0_lt. reflexivity. Qed.

Lemma pow2_add (a b : Z) : pow2 (a + b) == pow2 a * pow2 b.
Proof. apply Qpower_plus. discriminate. Qed.

Lemma pow2_cancel (e : Z) : pow2 (- e) * pow2 e == 1.
Proof.
  rewrite <- pow2_add. replace (- e + e)%Z with 0%Z by lia. reflexivity.
Qed.

Lemma pow2_Z (k : Z) : (0 <= k)%Z -> pow2 k == inject_Z (2 ^ k).
Proof.
  intros H. unfold pow2. rewrite Zpower_Qpower by exact H. reflexivity.
Qed.


(** [rne] is within one half of its argument, fixes the integers and is
    monotone. *)
Lemma rne_error (x : Q) : Qabs (inject_Z (rne x) - x) <= 1 # 2.
Proof.
  unfold rne. pose proof (Qfloor_le x) as Hl. pose proof (Qlt_floor x) as Hu.
  rewrite inject_Z_plus in Hu. change (inject_Z 1) with 1 in Hu.
  set (f := Qfloor x) in *.
  assert (H1 : inject_Z (f + 1) == inject_Z f + 1)
    by (rewrite inject_Z_plus; reflexivity).
  destruct (Qcompare (x - inject_Z f) (1 # 2)) eqn:E.
  - apply Qeq_alt in E. destruct (Z.even f); apply Qabs_case; intros _; lra.
  - apply Qlt_alt in E. apply Qabs_case; intros _; lra.
  - apply Qgt_alt in E. apply Qabs_case; intros _; lra.
Qed.


(** The exponent normalises the significand into [[2^52, 2^53)]. *)
Lemma expo_spec (a : Q) :
  0 < a -> pow2 52 <= a * pow2 (- expo a) /\ a * pow2 (- expo a) < pow2 53.
Proof.
  intros Ha. unfold expo.
  destruct a as [n d]. cbn [Qnum Qden].
  assert (Hn : (0 < n)%Z) by (unfold Qlt in Ha; simpl in Ha; lia).
  set (ln := Z.log2 n). set (ld := Z.log2 (Zpos d)).
  destruct (Z.log2_spec n Hn) as [Hn1 Hn2]. fold ln in Hn1, Hn2.
  destruct (Z.log2_spec (Zpos d) eq_refl) as [Hd1 Hd2]. fold ld in Hd1, Hd2.
  assert (Hln : (0 <= ln)%Z) by apply Z.log2_nonneg.
  assert (Hld : (0 <= ld)%Z) by apply Z.log2_nonneg.
  set (a := n # d) in *.
  assert (Ead : a * inject_Z (Zpos d) == inject_Z n).
  { unfold a, Qeq. simpl. lia. }
  assert (Hlow : pow2 ln < a * pow2 (ld + 1)).
  { rewrite !pow2_Z by lia.
    apply Qle_lt_trans with (inject_Z n); [now rewrite <- Zle_Qle |].
    rewrite <- Ead. apply Qmult_lt_l; [exact Ha |]. now rewrite <- Zlt_Qlt. }
  assert (Hupp : a * pow2 ld < pow2 (ln + 1)).
  { rewrite !pow2_Z by lia.
    apply Qle_lt_trans with (inject_Z n); [| now rewrite <- Zlt_Qlt ].
    rewrite <- Ead. apply Qmult_le_l; [exact Ha |]. now rewrite <- Zle_Qle. }
  set (e0 := (ln - ld - 52)%Z).
  assert (H51 : pow2 51 < a * pow2 (- e0)).
  { replace (- e0)%Z with ((ld + 1) + (51 - ln))%Z by (unfold e0; lia).
    replace 51%Z with (ln + (51 - ln))%Z at 1 by lia.
    rewrite !pow2_add.
    pose proof (pow2_pos (51 - ln)) as Hp.
    rewrite Qmult_assoc. apply Qmult_lt_r; [exact Hp |].
    rewrite <- pow2_add. exact Hlow. }
  assert (H53 : a * pow2 (- e0) < pow2 53).
  { replace (- e0)%Z with (ld + (52 - ln))%Z by (unfold e0; lia).
    replace 53%Z with ((ln + 1) + (52 - ln))%Z by lia.
    rewrite !pow2_add.
    pose proof (pow2_pos (52 - ln)) as Hp.
    rewrite Qmult_assoc. apply Qmult_lt_r; [exact Hp |].
    rewrite <- pow2_add. exact Hupp. }
  destruct (Qle_bool (pow2 52) (a * pow2 (- e0))) eqn:E.
  - apply Qle_bool_iff in E. split; assumption.
  - assert (E' : a * pow2 (- e0) < pow2 52).
    { apply Qnot_le_lt. intros H. apply Qle_bool_iff in H. congruence. }
    replace (- (e0 - 1))%Z with (- e0 + 1)%Z by lia.
    rewrite pow2_add. change (pow2 1) with 2.
    assert (E51 : pow2 52 == pow2 51 * 2)
      by (change 52%Z with (51 + 1)%Z; rewrite pow2_add; reflexivity).
    assert (E53 : pow2 53 == pow2 52 * 2)
      by (change 53%Z with (52 + 1)%Z; rewrite pow2_add; reflexivity).
    rewrite E53.
    set (Q51 := pow2 51) in *.
    set (m := a * pow2 (- e0)) in *. set (P := pow2 52) in *.
    rewrite Qmult_assoc. fold m. split; lra.
Qed.

Lemma Qabs_bound (x b : Q) : - b <= x <= b -> Qabs x <= b.
Proof. intros [H1 H2]. apply Qabs_case; intros _; lra. Qed.

Lemma Qabs_bound_inv (x b : Q) : Qabs x <= b -> - b <= x <= b.
Proof.
  intros H. pose proof (Qle_Qabs x) as H1. pose proof (Qle_Qabs (- x)) as H2.
  rewrite Qabs_opp in H2. lra.
Qed.

(** A rounded positive number is [M * 2^e] with a 53-bit integer [M]. *)
Lemma round_pos_shape (a : Q) :
  0 < a ->
  exists M : Z,
    round_pos a == inject_Z M * pow2 (expo a)
    /\ (2 ^ 52 <= M <= 2 ^ 53)%Z
    /\ Qabs (inject_Z M - a * pow2 (- expo a)) <= 1 # 2.
Proof.
  intros Ha. destruct (expo_spec a Ha) as [Hl Hu].
  set (m := a * pow2 (- expo a)) in *.
  exists (rne m). split; [apply Qred_correct |].
  pose proof (rne_error m) as He. split; [| exact He].
  apply Qabs_bound_inv in He.
  rewrite (pow2_Z 52) in Hl by lia. rewrite (pow2_Z 53) in Hu by lia.
  split.
  - assert (H : inject_Z (2 ^ 52 + - 1) < inject_Z (rne m)).
    { rewrite inject_Z_plus. change (inject_Z (- 1)) with (- (1)). lra. }
    rewrite <- Zlt_Qlt in H. lia.
  - assert (H : inject_Z (rne m) < inject_Z (2 ^ 53 + 1)).
    { rewrite inject_Z_plus. change (inject_Z 1) with 1. lra. }
    rewrite <- Zlt_Qlt in H. lia.
Qed.

Lemma round_pos_error (a : Q) :
  0 < a -> Qabs (round_pos a - a) <= unit_roundoff * a.
Proof.
  intros Ha. destruct (round_pos_shape a Ha) as (M & EM & HM & He).
  rewrite EM. clear EM.
  destruct (expo_spec a Ha) as [Hl _].
  pose proof (pow2_pos (expo a)) as HP. pose proof (pow2_cancel (expo a)) as Hc.
  set (P := pow2 (expo a)) in *. set (P' := pow2 (- expo a)) in *.
  change (pow2 52) with (inject_Z (2 ^ 52)) in Hl.
  apply Qabs_bound_inv in He. apply Qabs_bound.
  assert (Ea : a == (a * P') * P) by (rewrite <- Qmult_assoc, Hc; ring).
  set (m := a * P') in *.
  assert (E1 : inject_Z M * P - a == (inject_Z M - m) * P)
    by (rewrite Ea at 1; ring).
  rewrite E1.
  assert (E2 : unit_roundoff * a == (unit_roundoff * m) * P)
    by (rewrite Ea at 1; ring).
  rewrite E2.
  assert (Hm : (1 # 2) <= unit_roundoff * m).
  { assert (E : (1 # 2) == unit_roundoff * inject_Z (2 ^ 52)) by reflexivity.
    rewrite E. apply Qmult_le_l; [reflexivity | exact Hl]. }
  set (r := inject_Z M - m) in *. set (w := unit_roundoff * m) in *.
  split; nra.
Qed.






(** The relative error of one rounding is at most the unit roundoff. *)
Lemma binary64_error (x : Q) : Qabs (binary64 x - x) <= unit_roundoff * Qabs x.
Proof.
  unfold binary64. destruct (Qcompare x 0) eqn:C.
  - apply Qeq_alt in C. rewrite C. discriminate.
  - apply Qlt_alt in C.
    assert (Ha : 0 < Qred (- x)) by (rewrite Qred_correct; lra).
    pose proof (round_pos_error _ Ha) as H. rewrite Qred_correct in H at 2 3.
    rewrite (Qabs_neg x) by lra.
    setoid_replace (- round_pos (Qred (- x)) - x)
      with (- (round_pos (Qred (- x)) - - x)) by ring.
    rewrite Qabs_opp. exact H.
  - apply Qgt_alt in C.
    assert (Ha : 0 < Qred x) by (rewrite Qred_correct; lra).
    pose proof (round_pos_error _ Ha) as H. rewrite Qred_correct in H at 2 3.
    rewrite (Qabs_pos x) by lra. exact H.
Qed.







End Binary64Facts.

(** ** The program in binary64 arithmetic *)

Module RoundedFacts.
Import Backtester Binary64Facts.

(** Without rounding, the loop is the one of [Backtester]. *)
Lemma loop_unrounded (bt : t) (bars : list Bar) :
  forall st, Rounded.loop (fun x => x) bt st bars = Backtester.loop bt st bars.
Proof.
  induction bars as [| b rest IH]; intros st; [reflexivity |].
  cbn [Rounded.loop Backtester.loop].
  change (Rounded.step (fun x => x) bt st b) with (Backtester.step bt st b).
  destruct (Backtester.step bt st b) as [st' |]; [| reflexivity].
  cbn [bind]. rewrite IH. reflexivity.
Qed.

Lemma run_unrounded (bt : t) (bars : list Bar) :
  Rounded.run (fun x => x) bt bars = Backtester.run bt bars.
Proof.
  unfold Rounded.run, Backtester.run, Rounded.run_trace, Backtester.run_trace.
  destruct bars as [| b0 rest]; [reflexivity |].
  rewrite loop_unrounded. reflexivity.
Qed.

(** *** The accounting loop under a rounding

    What the loop does to the cash follows from three properties of the
    rounding: a relative error of at most [u] per operation, floats being
    rounded to themselves, and monotonicity. *)

Section Rounding.

Variable rnd : Q -> Q.
Variable u : Q.
Hypothesis u_range : 0 <= u <= 1 # 100.
Hypothesis rnd_error : forall x, Qabs (rnd x - x) <= u * Qabs x.
Hypothesis rnd_idem : forall x, rnd (rnd x) == rnd x.
Hypothesis rnd_mono : forall x y, x <= y -> rnd x <= rnd y.

Lemma rnd_pos_bounds (x : Q) :
  0 <= x -> x * (1 - u) <= rnd x /\ rnd x <= x * (1 + u).
Proof.
  intros Hx. pose proof (rnd_error x) as H.
  rewrite (Qabs_pos x) in H by exact Hx.
  apply Qabs_bound_inv in H. split; lra.
Qed.

Lemma rnd_neg_bounds (x : Q) :
  x <= 0 -> x * (1 + u) <= rnd x /\ rnd x <= x * (1 - u).
Proof.
  intros Hx. pose proof (rnd_error x) as H.
  rewrite (Qabs_neg x) in H by exact Hx.
  apply Qabs_bound_inv in H. split; lra.
Qed.

Lemma rnd_nonneg (x : Q) : 0 <= x -> 0 <= rnd x.
Proof. intros Hx. destruct (rnd_pos_bounds x Hx) as [H _]. nra. Qed.

Lemma rnd_nonpos (x : Q) : x <= 0 -> rnd x <= 0.
Proof. intros Hx. destruct (rnd_neg_bounds x Hx) as [_ H]. nra. Qed.

Lemma slack_up : ((1 + u) ^ 6 - 1) * (1 + u) <= 8 * u.
Proof.
  assert (H2 : (1 + u) ^ 2 <= 1 + 3 * u) by nra.
  assert (H4 : (1 + u) ^ 4 <= 1 + 5 * u).
  { assert (E : (1 + u) ^ 4 == (1 + u) ^ 2 * (1 + u) ^ 2) by ring. rewrite E.
    set (a := (1 + u) ^ 2) in *. assert (0 <= a) by (unfold a; nra). nra. }
  assert (H6 : (1 + u) ^ 6 <= 1 + 7 * u).
  { assert (E : (1 + u) ^ 6 == (1 + u) ^ 4 * (1 + u) ^ 2) by ring. rewrite E.
    set (a := (1 + u) ^ 2) in *. set (b := (1 + u) ^ 4) in *.
    assert (0 <= a) by (unfold a; nra).
    assert (0 <= b) by (unfold b; nra). nra. }
  set (a := (1 + u) ^ 6) in *. nra.
Qed.

Lemma slack_down : 1 - 6 * u <= (1 - u) ^ 6.
Proof.
  assert (H2 : 1 - 2 * u <= (1 - u) ^ 2) by nra.
  assert (H4 : 1 - 4 * u <= (1 - u) ^ 4).
  { assert (E : (1 - u) ^ 4 == (1 - u) ^ 2 * (1 - u) ^ 2) by ring. rewrite E.
    set (a := (1 - u) ^ 2) in *. nra. }
  assert (E : (1 - u) ^ 6 == (1 - u) ^ 4 * (1 - u) ^ 2) by ring. rewrite E.
  set (a := (1 - u) ^ 2) in *. set (b := (1 - u) ^ 4) in *. nra.
Qed.

(** What one entry does to the cash, from non-negative cash. *)
Lemma entry_bounds (c k price : Q) :
  0 <= c -> 0 <= k <= 1 -> 0 < price ->
  let shares := int_of (rnd (rnd (c * rnd (1 - k)) / price)) in
  let cost := rnd (inject_Z shares * price) in
  let cc := rnd (cost * k) in
  let c' := rnd (c - rnd (cost + cc)) in
  (0 <= shares)%Z
  /\ - (8 * u) * c <= c'
  /\ c' <= (price * (1 + k) + c * k * k) * (1 + u) + 8 * u * c.
Proof.
  intros Hc Hk Hp.
  set (K := 1 + u). set (L := 1 - u).
  assert (HK : 1 <= K) by (unfold K; lra).
  assert (HL : 0 < L <= 1) by (unfold L; lra).
  set (t1 := rnd (1 - k)).
  destruct (rnd_pos_bounds (1 - k)) as [T1l T1u]; [lra |].
  fold t1 K L in T1l, T1u.
  assert (T1 : 0 <= t1) by (apply rnd_nonneg; lra).
  set (t2 := rnd (c * t1)).
  assert (X2 : 0 <= c * t1) by nra.
  destruct (rnd_pos_bounds (c * t1) X2) as [T2l T2u]. fold t2 K L in T2l, T2u.
  assert (T2 : 0 <= t2) by (apply rnd_nonneg; exact X2).
  set (w := t2 / price).
  assert (Ew : w * price == t2) by (unfold w; field; lra).
  assert (W : 0 <= w) by (unfold w; apply Qle_shift_div_l; [exact Hp | lra]).
  set (q := rnd w).
  destruct (rnd_pos_bounds w W) as [Ql Qu]. fold q K L in Ql, Qu.
  assert (Q0 : 0 <= q) by (apply rnd_nonneg; exact W).
  destruct (int_of_nonneg q Q0) as [Hs Hsq].
  pose proof (int_of_lower q Q0) as Hsl.
  cbv zeta. fold t1 t2 w q.
  set (s := inject_Z (int_of q)) in *.
  assert (S0 : 0 <= s).
  { unfold s. change 0 with (inject_Z 0). rewrite <- Zle_Qle. exact Hs. }
  set (y := s * price).
  assert (Y0 : 0 <= y) by (unfold y; nra).
  set (cost := rnd y).
  destruct (rnd_pos_bounds y Y0) as [Cl Cu]. fold cost K L in Cl, Cu.
  assert (C0 : 0 <= cost) by (apply rnd_nonneg; exact Y0).
  set (cc := rnd (cost * k)).
  assert (Z0 : 0 <= cost * k) by nra.
  destruct (rnd_pos_bounds _ Z0) as [CCl CCu]. fold cc K L in CCl, CCu.
  assert (CC0 : 0 <= cc) by (apply rnd_nonneg; exact Z0).
  set (sm := rnd (cost + cc)).
  assert (V0 : 0 <= cost + cc) by lra.
  destruct (rnd_pos_bounds _ V0) as [Sl Su]. fold sm K L in Sl, Su.
  set (a := c * (1 - k)).
  assert (A0 : 0 <= a) by (unfold a; nra).
  assert (U2 : t2 <= a * K ^ 2).
  { apply Qle_trans with (c * t1 * K); [exact T2u |].
    assert (c * t1 <= a * K) by (unfold a; nra).
    assert (E : a * K ^ 2 == a * K * K) by ring. rewrite E.
    apply Qmult_le_compat_r; lra. }
  assert (U3 : y <= a * K ^ 3).
  { apply Qle_trans with (q * price); [unfold y; nra |].
    apply Qle_trans with (w * K * price); [nra |].
    assert (E : w * K * price == t2 * K) by (rewrite <- Ew; ring). rewrite E.
    assert (E' : a * K ^ 3 == a * K ^ 2 * K) by ring. rewrite E'.
    apply Qmult_le_compat_r; lra. }
  assert (U4 : cost <= a * K ^ 4).
  { apply Qle_trans with (y * K); [exact Cu |].
    assert (E' : a * K ^ 4 == a * K ^ 3 * K) by ring. rewrite E'.
    apply Qmult_le_compat_r; lra. }
  assert (U5 : sm <= cost * (1 + k) * K ^ 2).
  { apply Qle_trans with ((cost + cc) * K); [exact Su |].
    assert (E' : cost * (1 + k) * K ^ 2 == cost * (1 + k) * K * K) by ring.
    rewrite E'. apply Qmult_le_compat_r; [| lra].
    apply Qle_trans with (cost + cost * k * K); [lra |]. nra. }
  assert (U6 : sm <= c * K ^ 6).
  { apply Qle_trans with (cost * (1 + k) * K ^ 2); [exact U5 |].
    assert (K2 : 0 <= (1 + k) * K ^ 2) by nra.
    apply Qle_trans with (a * K ^ 4 * ((1 + k) * K ^ 2)).
    - rewrite <- Qmult_assoc. apply Qmult_le_compat_r; assumption.
    - assert (E : a * K ^ 4 * ((1 + k) * K ^ 2) == (c * (1 - k * k)) * K ^ 6)
        by (unfold a; ring).
      rewrite E. apply Qmult_le_compat_r; [nra |].
      assert (0 <= K ^ 6) by (apply Qpower_0_le; lra). assumption. }
  split; [exact Hs |].
  set (d := c - sm).
  split.
  - destruct (Qlt_le_dec d 0) as [Hd | Hd].
    + destruct (rnd_neg_bounds d) as [Dl _]; [lra |]. fold K in Dl.
      pose proof slack_up as SU. fold K in SU.
      apply Qle_trans with (d * K); [| exact Dl].
      assert (D1 : - (c * (K ^ 6 - 1)) <= d) by (unfold d; lra).
      apply Qle_trans with (- (c * (K ^ 6 - 1)) * K); [| nra].
      assert (c * ((K ^ 6 - 1) * K) <= c * (8 * u)) by nra.
      lra.
    + pose proof (rnd_nonneg d Hd). nra.
  - assert (RHS0 : 0 <= (price * (1 + k) + c * k * k) * K + 8 * u * c).
    { assert (0 <= c * k * k) by nra. assert (0 <= price * (1 + k)) by nra.
      assert (0 <= 8 * u * c) by nra. nra. }
    destruct (Qlt_le_dec d 0) as [Hd | Hd].
    + pose proof (rnd_nonpos d) as Hn.
      apply Qle_trans with 0; [apply Hn; lra | exact RHS0].
    + destruct (rnd_pos_bounds d Hd) as [_ Du]. fold K in Du.
      apply Qle_trans with (d * K); [exact Du |].
      pose proof slack_down as SD. fold L in SD.
      assert (L2 : a * L ^ 2 <= t2).
      { apply Qle_trans with (c * t1 * L); [| exact T2l].
        assert (a * L <= c * t1) by (unfold a; nra).
        assert (E : a * L ^ 2 == a * L * L) by ring. rewrite E.
        apply Qmult_le_compat_r; lra. }
      assert (L3 : a * L ^ 3 <= q * price).
      { apply Qle_trans with (w * L * price); [| nra].
        assert (E : w * L * price == t2 * L) by (rewrite <- Ew; ring).
        rewrite E.
        assert (E' : a * L ^ 3 == a * L ^ 2 * L) by ring. rewrite E'.
        apply Qmult_le_compat_r; lra. }
      assert (L3' : a * L ^ 3 - price <= y) by (unfold y; nra).
      assert (L5 : cost * (1 + k) * L ^ 2 <= sm).
      { apply Qle_trans with ((cost + cc) * L); [| exact Sl].
        assert (E' : cost * (1 + k) * L ^ 2 == cost * (1 + k) * L * L) by ring.
        rewrite E'. apply Qmult_le_compat_r; [| lra].
        apply Qle_trans with (cost + cost * k * L); [nra | lra]. }
      assert (L6 : y * ((1 + k) * L ^ 3) <= sm).
      { apply Qle_trans with (cost * (1 + k) * L ^ 2); [| exact L5].
        assert (E : y * ((1 + k) * L ^ 3) == y * L * ((1 + k) * L ^ 2)) by ring.
        assert (E' : cost * (1 + k) * L ^ 2 == cost * ((1 + k) * L ^ 2))
          by ring.
        rewrite E, E'.
        apply Qmult_le_compat_r; [exact Cl | nra]. }
      assert (PL : 0 <= (1 + k) * L ^ 3).
      { assert (0 <= L ^ 3) by (apply Qpower_0_le; lra). nra. }
      assert (L7 : (a * L ^ 3 - price) * ((1 + k) * L ^ 3) <= sm).
      { apply Qle_trans with (y * ((1 + k) * L ^ 3)); [| exact L6].
        apply Qmult_le_compat_r; assumption. }
      assert (E7 : (a * L ^ 3 - price) * ((1 + k) * L ^ 3)
                   == c * (1 - k * k) * L ^ 6 - price * (1 + k) * L ^ 3)
        by (unfold a; ring).
      rewrite E7 in L7.
      assert (L31 : L ^ 3 <= 1).
      { assert (0 <= L ^ 2 <= 1) by nra.
        assert (E : L ^ 3 == L ^ 2 * L) by ring. rewrite E. nra. }
      assert (L61 : L ^ 6 <= 1).
      { assert (E : L ^ 6 == L ^ 3 * L ^ 3) by ring. rewrite E.
        assert (0 <= L ^ 3) by (apply Qpower_0_le; lra). nra. }
      assert (D1 : d <= c * k * k + 6 * u * c + price * (1 + k)).
      { unfold d.
        assert (G1 : price * (1 + k) * L ^ 3 <= price * (1 + k)).
        { assert (0 <= price * (1 + k)) by nra. nra. }
        assert (G2 : c * (1 - k * k) * (1 - 6 * u) <= c * (1 - k * k) * L ^ 6).
        { assert (Hkk : k * k <= 1) by nra.
          assert (M0 : 0 <= c * (1 - k * k)) by (apply Qmult_le_0_compat; lra).
          set (m := c * (1 - k * k)) in *. set (l6 := L ^ 6) in *. nra. }
        assert (G3 : c - c * (1 - k * k) * (1 - 6 * u)
                     <= c * k * k + 6 * u * c).
        { assert (0 <= c * (k * k)) by nra. nra. }
        lra. }
      apply Qle_trans with ((c * k * k + 6 * u * c + price * (1 + k)) * K).
      * apply Qmult_le_compat_r; lra.
      * assert (6 * u * c * K <= 8 * u * c).
        { assert (0 <= u * c) by nra. unfold K. nra. }
        lra.
Qed.





End Rounding.

(** *** Cash under binary64 arithmetic *)

Lemma unit_roundoff_range : 0 <= unit_roundoff <= 1 # 100.
Proof. split; discriminate. Qed.



(** The two scenarios of the specification give the same totals in binary64
    arithmetic as in exact arithmetic: 820 without commission, 802 with
    the commission rate nearest to 0.01. *)
Lemma scenario_totals_in_binary64 :
  (exists ledger,
     Rounded.run binary64 scenario_A scenario_bars = Ok ledger
     /\ final_total ledger = Some 820)
  /\ (exists ledger,
        Rounded.run binary64 (mk 1000 (binary64 (1 # 100))) scenario_bars
        = Ok ledger
        /\ final_total ledger = Some 802).
Proof.
  split; eexists; (split; [vm_compute; reflexivity | reflexivity]).
Qed.


(** X20. A Buy executed while flat (non-negative cash, commission rate in
    [[0,1]], positive close) invests all the cash the sizing rule allows:
    the cash left is at least [-2^-50] times the cash before, and at most
    [close * (1 + commission) + cash * commission^2], up to the rounding
    of the operations (a factor [1 + 2^-53] and [2^-50] times the cash
    before); without commission that is the price of one share. *)
Theorem entry_leaves_at_most_one_share
    (bt : t) (st : State) (b : Bar) :
  (signal b > 0)%Z ->
  position st = 0%Z ->
  0 <= st_cash st ->
  0 <= commission bt <= 1 ->
  0 < close b ->
  exists st',
    Rounded.step binary64 bt st b = Ok st'
    /\ (0 <= position st')%Z
    /\ - (1 # 2 ^ 50) * st_cash st <= st_cash st'
    /\ st_cash st'
       <= (close b * (1 + commission bt)
           + st_cash st * commission bt * commission bt)
          * (1 + (1 # 2 ^ 53))
          + (1 # 2 ^ 50) * st_cash st
    /\ (commission bt == 0 ->
        st_cash st'
        <= close b * (1 + (1 # 2 ^ 53)) + (1 # 2 ^ 50) * st_cash st).
Proof.
  intros Hs Hflat Hc Hk Hp.
  unfold Rounded.step, Rounded.shares_to_buy.
  replace ((signal b >? 0)%Z && (position st =? 0)%Z) with true
    by (symmetry; apply andb_true_intro; split; lia).
  rewrite Qeq_bool_false_neq by lra. cbn [bind].
  eexists. split; [reflexivity |]. cbn [position st_cash].
  destruct (entry_bounds binary64 unit_roundoff unit_roundoff_range
              binary64_error (st_cash st) (commission bt) (close b) Hc Hk Hp)
    as (Hsh & Hlow & Hup).
  cbv zeta in Hsh, Hlow, Hup.
  set (remaining := binary64 (st_cash st - _)) in *.
  assert (E8 : (1 # 2 ^ 50) == 8 * unit_roundoff) by reflexivity.
  assert (E1 : (1 # 2 ^ 53) == unit_roundoff) by reflexivity.
  assert (Hlow' : - (1 # 2 ^ 50) * st_cash st <= remaining)
    by (rewrite E8; exact Hlow).
  assert (Hup' : remaining
                 <= (close b * (1 + commission bt)
                     + st_cash st * commission bt * commission bt)
                    * (1 + (1 # 2 ^ 53))
                    + (1 # 2 ^ 50) * st_cash st)
    by (rewrite E8, E1; exact Hup).
  split; [exact Hsh |]. split; [exact Hlow' |]. split; [exact Hup' |].
  intros Hk0.
  assert (Ek : st_cash st * commission bt * commission bt == 0)
    by (rewrite Hk0; ring).
  assert (Ep : close b * (1 + commission bt) == close b)
    by (rewrite Hk0; ring).
  rewrite Ek, Ep in Hup'.
  eapply Qle_trans; [exact Hup' |]. lra.
Qed.

Lemma entry_leaves_at_most_one_share_witness :
  exists st',
    Rounded.step binary64 (mk 1540 0) {| st_cash := 1540; position := 0 |}
      (mkBar 1 (binary64 (88 # 10))) = Ok st'
    /\ (0 <= position st')%Z
    /\ - (1 # 2 ^ 50) * 1540 <= st_cash st'
    /\ st_cash st'
       <= (binary64 (88 # 10) * (1 + 0) + 1540 * 0 * 0)
          * (1 + (1 # 2 ^ 53))
          + (1 # 2 ^ 50) * 1540
    /\ (0 == 0 ->
        st_cash st'
        <= binary64 (88 # 10) * (1 + (1 # 2 ^ 53)) + (1 # 2 ^ 50) * 1540).
Proof.
  apply (entry_leaves_at_most_one_share (mk 1540 0)
           {| st_cash := 1540; position := 0 |}
           (mkBar 1 (binary64 (88 # 10)))).
  - simpl. lia.
  - reflexivity.
  - discriminate.
  - split; discriminate.
  - vm_compute. reflexivity.
Defined.

(** *** The zero-deviation guard of the Sharpe ratio *)







Section Reductions.

(** Whatever the order of its additions, the library's sum of zeros is
    zero. *)

Variable fsum : list float -> float.
Variable sqrt : Q -> Q.
Hypothesis sqrt_zero : forall q, q == 0 -> sqrt q == 0.
Hypothesis fsum_zero :
  forall xs, Forall (fun x => feq x (Fin 0)) xs -> feq (fsum xs) (Fin 0).







End Reductions.





End RoundedFacts.
